(** * csi-vfs: the volume metadata store and the mount-table resolver

    A shallow embedding of [service/service.go]: the volume record with
    its JSON persistence ([volumeInfo], [MarshalJSON], [UnmarshalJSON],
    [save], [load]), the volume lookup ([getVolume], [fileExists]) and the
    mount-table resolver ([getMountsObj.ScanEntry], [getMounts],
    [getVolumeMountPaths]), and the start of the service ([New],
    [BeforeServe]).  What the program calls of its libraries is modelled
    beside it: [path], [regexp], the file system through [os], the string
    encoder and the decoder of [encoding/json], and [jsonpb].

    Go strings are byte strings: [string] with one [ascii] per byte.  The
    resolution cache, a Go [map[string]gofsutil.Entry], is a [gmap].  Go
    functions with several results return tuples, an [error] result is an
    [option error] with [None] for [nil], and code that writes through a
    pointer returns the new value of what it points to. *)

From Stdlib Require Import ZArith Ascii String List Bool Lia.
From Stdlib Require Import DecimalString DecimalZ.
From stdpp Require Import base option list gmap strings sorting.

Local Open Scope string_scope.
Local Open Scope list_scope.

(** ** Bytes and strings *)

Definition bytes (s : string) : list ascii := list_ascii_of_string s.
Definition str (l : list ascii) : string := string_of_list_ascii l.

Definition byte (n : N) : ascii := ascii_of_N n.

Definition isUpper (c : ascii) : bool :=
  ((65 <=? N_of_ascii c) && (N_of_ascii c <=? 90))%N.

Definition isLower (c : ascii) : bool :=
  ((97 <=? N_of_ascii c) && (N_of_ascii c <=? 122))%N.

Definition toLower (c : ascii) : ascii :=
  if isUpper c then ascii_of_N (N_of_ascii c + 32) else c.

Definition toUpper (c : ascii) : ascii :=
  if isLower c then ascii_of_N (N_of_ascii c - 32) else c.

(** [strings.HasPrefix] on byte lists, returning what follows the prefix. *)
Fixpoint stripPrefix (p s : list ascii) : option (list ascii) :=
  match p, s with
  | [], _ => Some s
  | a :: p', b :: s' => if Ascii.eqb a b then stripPrefix p' s' else None
  | _ :: _, [] => None
  end.

Definition HasPrefix (s prefix : string) : bool :=
  match stripPrefix (bytes prefix) (bytes s) with Some _ => true | None => false end.

(** All the suffixes of a byte list, the longest first: the positions at
    which an unanchored search may start. *)
Fixpoint tails (s : list ascii) : list (list ascii) :=
  s :: match s with [] => [] | _ :: s' => tails s' end.

(** ** Go's [path] package: [Clean] and [Join] *)

Module path.

Definition slash : ascii := "/"%char.
Definition dot : ascii := "."%char.

(** End of the path or a separator: [r == n || path[r] == '/']. *)
Definition atSep (rest : list ascii) : bool :=
  match rest with [] => true | c :: _ => Ascii.eqb c slash end.

(** The [..] case when the buffer can backtrack: [out.w--] and then
    [for out.w > dotdot && out.index(out.w) != '/' { out.w-- }].  The
    buffer is kept reversed, its length is [out.w]. *)
Fixpoint backtrack (dotdot : nat) (out : list ascii) : list ascii :=
  match out with
  | [] => []
  | c :: out' =>
      if (dotdot <? length out')%nat && negb (Ascii.eqb c slash)
      then backtrack dotdot out' else out'
  end.

(** Copy of a path element: [for ; r < n && path[r] != '/'; r++]. *)
Fixpoint copyElem (rest out : list ascii) : list ascii * list ascii :=
  match rest with
  | [] => ([], out)
  | c :: rest' =>
      if Ascii.eqb c slash then (rest, out) else copyElem rest' (c :: out)
  end.

(** The loop [for r < n] of [Clean]: [rest] is [path[r:]], [out] the
    reversed buffer.  Every round consumes a byte, so [length path]
    rounds are enough. *)
Fixpoint cleanLoop (fuel : nat) (rooted : bool) (rest out : list ascii)
  (dotdot : nat) : list ascii :=
  match fuel with
  | O => out
  | S fuel' =>
      match rest with
      | [] => out
      | c :: r1 =>
          if Ascii.eqb c slash then
            cleanLoop fuel' rooted r1 out dotdot
          else if Ascii.eqb c dot && atSep r1 then
            cleanLoop fuel' rooted r1 out dotdot
          else if Ascii.eqb c dot
                  && match r1 with
                     | c1 :: r2 => Ascii.eqb c1 dot && atSep r2
                     | [] => false
                     end then
            let r2 := tl r1 in
            if (dotdot <? length out)%nat then
              cleanLoop fuel' rooted r2 (backtrack dotdot out) dotdot
            else if negb rooted then
              let out1 := if (0 <? length out)%nat then slash :: out else out in
              let out2 := dot :: dot :: out1 in
              cleanLoop fuel' rooted r2 out2 (length out2)
            else
              cleanLoop fuel' rooted r2 out dotdot
          else
            let out1 :=
              if (rooted && negb (length out =? 1)%nat)
                 || (negb rooted && negb (length out =? 0)%nat)
              then slash :: out else out in
            let '(rest', out2) := copyElem rest out1 in
            cleanLoop fuel' rooted rest' out2 dotdot
      end
  end.

Definition Clean (p : string) : string :=
  match bytes p with
  | [] => "."
  | c :: tl_ =>
      let rooted := Ascii.eqb c slash in
      let out :=
        if rooted then cleanLoop (length (bytes p)) true tl_ [slash] 1
        else cleanLoop (length (bytes p)) false (bytes p) [] 0 in
      match out with
      | [] => "."
      | _ => str (rev out)
      end
  end.

(** [strings.Join(elem, "/")]. *)
Fixpoint joinSlash (elem : list string) : string :=
  match elem with
  | [] => ""
  | [e] => e
  | e :: rest => e ++ "/" ++ joinSlash rest
  end.

(** [Join]: the elements from the first non-empty one on, joined with
    slashes and cleaned; the empty string when all are empty. *)
Fixpoint Join (elem : list string) : string :=
  match elem with
  | [] => ""
  | e :: rest => if String.eqb e "" then Join rest else Clean (joinSlash elem)
  end.

(** [Dir]: what comes before the last slash, cleaned. *)
Fixpoint upToLastSlash (l : list ascii) : list ascii :=
  match l with
  | [] => []
  | c :: rest =>
      match upToLastSlash rest with
      | [] => if Ascii.eqb c slash then [c] else []
      | dir => c :: dir
      end
  end.

Definition Dir (p : string) : string := Clean (str (upToLastSlash (bytes p))).

End path.

(** ** Go's [unicode/utf8], as far as [encoding/json] needs it *)

Module utf8.

Definition inRange (lo hi : N) (c : ascii) : bool :=
  ((lo <=? N_of_ascii c) && (N_of_ascii c <=? hi))%N.

(** A continuation byte. *)
Definition cont (c : ascii) : bool := inRange 128 191 c.

(** The width of the rune that [l] begins with, [None] when [l] does not
    begin with a well-formed encoding ([DecodeRune] then gives
    [RuneError] and the width 1).  The ranges of the second byte exclude
    the over-long forms, the surrogates and what lies beyond U+10FFFF. *)
Definition runeLen (l : list ascii) : option nat :=
  match l with
  | [] => None
  | b0 :: rest =>
      if (N_of_ascii b0 <? 128)%N then Some 1%nat
      else if inRange 194 223 b0 then
        match rest with
        | b1 :: _ => if cont b1 then Some 2%nat else None
        | _ => None
        end
      else if inRange 224 239 b0 then
        match rest with
        | b1 :: b2 :: _ =>
            if inRange (if (N_of_ascii b0 =? 224)%N then 160 else 128)
                       (if (N_of_ascii b0 =? 237)%N then 159 else 191) b1
               && cont b2
            then Some 3%nat else None
        | _ => None
        end
      else if inRange 240 244 b0 then
        match rest with
        | b1 :: b2 :: b3 :: _ =>
            if inRange (if (N_of_ascii b0 =? 240)%N then 144 else 128)
                       (if (N_of_ascii b0 =? 244)%N then 143 else 191) b1
               && cont b2 && cont b3
            then Some 4%nat else None
        | _ => None
        end
      else None
  end.

(** U+FFFD, the replacement character, in UTF-8. *)
Definition replacement : list ascii := [byte 239; byte 191; byte 189].

(** The loop of the string encoder of [encoding/json] over the runes of a
    string: a well-formed rune is kept, a byte that begins none is
    written as U+FFFD.  Every round consumes a byte at least. *)
Fixpoint toValid (fuel : nat) (l : list ascii) : list ascii :=
  match fuel, l with
  | S fuel', _ :: rest =>
      match runeLen l with
      | Some n => firstn n l ++ toValid fuel' (skipn n l)
      | None => replacement ++ toValid fuel' rest
      end
  | _, _ => []
  end.

Fixpoint valid (fuel : nat) (l : list ascii) : bool :=
  match fuel, l with
  | _, [] => true
  | S fuel', _ :: _ =>
      match runeLen l with
      | Some n => valid fuel' (skipn n l)
      | None => false
      end
  | O, _ :: _ => false
  end.

(** The string as JSON carries it. *)
Definition ToValid (s : string) : string :=
  str (toValid (length (bytes s)) (bytes s)).

(** [utf8.ValidString]. *)
Definition ValidString (s : string) : bool :=
  valid (length (bytes s)) (bytes s).

End utf8.

(** ** Go's [regexp], as far as the relevance pattern needs it *)

Module regexp.

Inductive regex : Type :=
| BeginText                                  (* ^ without the m flag *)
| EndText                                    (* $ without the m flag *)
| Lit (foldCase : bool) (w : list ascii)     (* a literal string, under (?i) or not *)
| AnyNotNL                                   (* . without the s flag *)
| Digit                                      (* \d *)
| Cat (r1 r2 : regex)
| Alt (r1 r2 : regex)
| Star (r : regex)
| Quest (r : regex).

(** The runes other than [c] that a literal [c] accepts under (?i), in
    UTF-8: the orbit of [unicode.SimpleFold].  For an ASCII letter that
    is the other case, and U+017F (long s) for s, U+212A (the Kelvin
    sign) for k. *)
Definition foldOrbit (c : ascii) : list (list ascii) :=
  if isUpper c || isLower c then
    [if isUpper c then toLower c else toUpper c]
      :: (if Ascii.eqb (toLower c) "s"%char then [[byte 197; byte 191]]
          else if Ascii.eqb (toLower c) "k"%char then [[byte 226; byte 132; byte 170]]
          else [])
  else [].

Fixpoint firstStrip (alts : list (list ascii)) (s : list ascii) : option (list ascii) :=
  match alts with
  | [] => None
  | a :: alts' =>
      match stripPrefix a s with
      | Some s' => Some s'
      | None => firstStrip alts' s
      end
  end.

(** One literal rune matched at the start of [s]: what follows it. *)
Definition matchRune (foldCase : bool) (c : ascii) (s : list ascii)
  : option (list ascii) :=
  firstStrip ([c] :: if foldCase then foldOrbit c else []) s.

(** A literal string matched at the start of [s]: what follows it. *)
Fixpoint matchLit (foldCase : bool) (w s : list ascii) : option (list ascii) :=
  match w with
  | [] => Some s
  | c :: w' =>
      match matchRune foldCase c s with
      | Some s' => matchLit foldCase w' s'
      | None => None
      end
  end.

Definition isDigit (c : ascii) : bool :=
  ((48 <=? N_of_ascii c) && (N_of_ascii c <=? 57))%N.

Definition newline : ascii := byte 10.

Section Ends.
(** [n] is the length of the whole text: a suffix of that length is the
    beginning of the text. *)
Variable n : nat.

(** Iteration of [step] for a star; only iterations that consume input
    are followed, so [length s] rounds reach every end. *)
Fixpoint starEnds (step : list ascii -> list (list ascii)) (fuel : nat)
  (s : list ascii) : list (list ascii) :=
  s :: match fuel with
       | O => []
       | S fuel' =>
           flat_map (fun s' =>
                       if (length s' <? length s)%nat
                       then starEnds step fuel' s' else [])
                    (step s)
       end.

(** [ends r s]: what can remain of [s] after [r] has matched at its
    start. *)
Fixpoint ends (r : regex) (s : list ascii) : list (list ascii) :=
  match r with
  | BeginText => if (length s =? n)%nat then [s] else []
  | EndText => match s with [] => [s] | _ => [] end
  | Lit foldCase w => option_list (matchLit foldCase w s)
  | AnyNotNL =>
      match s with
      | c :: s' => if Ascii.eqb c newline then [] else [s']
      | [] => []
      end
  | Digit =>
      match s with
      | c :: s' => if isDigit c then [s'] else []
      | [] => []
      end
  | Cat r1 r2 => flat_map (ends r2) (ends r1 s)
  | Alt r1 r2 => ends r1 s ++ ends r2 s
  | Star r1 => starEnds (ends r1) (length s) s
  | Quest r1 => ends r1 s ++ [s]
  end.
End Ends.

Definition nonEmpty {A} (l : list A) : bool :=
  match l with [] => false | _ => true end.

(** [regexp.MatchString] with a compiled pattern: an unanchored search,
    a match may start at any position of the text. *)
Definition MatchString (r : regex) (s : string) : bool :=
  existsb (fun suf => nonEmpty (ends (length (bytes s)) r suf)) (tails (bytes s)).

End regexp.

(** ** gofsutil's mount-table types *)

(** [gofsutil.Entry]: one line of the mount table. *)
Record Entry : Type := mkEntry {
  Root : string;
  MountPoint : string;
  MountOpts : list string;
  FSType : string;
  MountSource : string
}.

(** [gofsutil.Info]: a resolved mount. *)
Record Info : Type := mkInfo {
  Device : string;
  Path : string;
  Source : string;
  Type_ : string;
  Opts : list string
}.

(** The zero value of [Info], what the named result [info] holds until it
    is assigned. *)
Definition zeroInfo : Info := mkInfo "" "" "" "" [].

Definition setSource (i : Info) (s : string) : Info :=
  mkInfo (Device i) (Path i) s (Type_ i) (Opts i).

(** ** Errors *)

(** The gRPC status codes this file uses. *)
Inductive Code : Type := Unknown | NotFound | Internal.

(** The error numbers a file operation can fail with. *)
Inductive Errno : Type := ENOENT | EACCES | ENOTDIR | EISDIR | EIO | ENOSPC.

(** A Go [error] value: a gRPC status made by [status.Error] or
    [status.Errorf], or an error of a library, passed on as it is. *)
Inductive error : Type :=
| Status (c : Code) (msg : string)           (* status.Error(c, msg) *)
| PathError (op p : string) (e : Errno)      (* *os.PathError *)
| EOF                                        (* io.EOF *)
| SyntaxError                                (* *json.SyntaxError *)
| UnmarshalTypeError (field : string)        (* *json.UnmarshalTypeError *)
| MarshalerError (e : error)                 (* *json.MarshalerError *)
| OtherError (msg : string).                 (* errors.New(msg) and the like *)

(** [status.Code(err)]: the code of a status, [Unknown] for every other
    error. *)
Definition codeOf (e : error) : Code :=
  match e with Status c _ => c | _ => Unknown end.

Definition errnoText (e : Errno) : string :=
  match e with
  | ENOENT => "no such file or directory"
  | EACCES => "permission denied"
  | ENOTDIR => "not a directory"
  | EISDIR => "is a directory"
  | EIO => "input/output error"
  | ENOSPC => "no space left on device"
  end.

Definition codeText (c : Code) : string :=
  match c with Unknown => "Unknown" | NotFound => "NotFound" | Internal => "Internal" end.

(** [err.Error()], what the verb [%v] prints. *)
Fixpoint Error (e : error) : string :=
  match e with
  | Status c msg => "rpc error: code = " ++ codeText c ++ " desc = " ++ msg
  | PathError op p e => op ++ " " ++ p ++ ": " ++ errnoText e
  | EOF => "EOF"
  | SyntaxError => "invalid character looking for beginning of value"
  | UnmarshalTypeError f => "json: cannot unmarshal value into Go struct field " ++ f
  | MarshalerError e' =>
      "json: error calling MarshalJSON for type *service.volumeInfo: " ++ Error e'
  | OtherError msg => msg
  end.

(** ** The mount-table resolver *)

(** The pattern of [ScanEntry], with its four alternatives
      (?i)^devtmpfs   (?:fuse\. .* )   (?:nfs\d?)   overlay$
    Alternation binds weakest, so the anchors belong to the first and to
    the last alternative only, and (?i) holds for all four. *)
Definition fsTypePattern : regexp.regex :=
  let lit := fun w => regexp.Lit true (bytes w) in
  regexp.Alt
    (regexp.Cat regexp.BeginText (lit "devtmpfs"))
    (regexp.Alt
       (regexp.Cat (lit "fuse.") (regexp.Star regexp.AnyNotNL))
       (regexp.Alt
          (regexp.Cat (lit "nfs") (regexp.Quest regexp.Digit))
          (regexp.Cat (lit "overlay") regexp.EndText))).

(** [getMountsObj.ScanEntry]: the results [info], [valid], [failed] and
    the cache as the call leaves it. *)
Definition ScanEntry (entry : Entry) (cache : gmap string Entry)
  : Info * bool * option error * gmap string Entry :=
  let validFSType := regexp.MatchString fsTypePattern (FSType entry) in
  let sourceHasSlashPrefix := HasPrefix (MountSource entry) "/" in
  let valid := validFSType || sourceHasSlashPrefix in
  if negb valid then (zeroInfo, valid, None, cache)
  else
    let info := mkInfo (MountSource entry) (MountPoint entry)
                  (MountSource entry) (FSType entry) (MountOpts entry) in
    match cache !! MountSource entry with
    | Some cachedEntry =>
        (setSource info (path.Join [MountPoint cachedEntry; Root entry]),
         valid, None, cache)
    | None => (info, valid, None, <[MountSource entry := entry]> cache)
    end.

(** Modelled from the spec: the scan loop of gofsutil's [GetMounts], which
    is not part of this repository.  One pass over the entries in table
    order with one cache, empty at the start of the scan; an entry that
    [ScanEntry] reports valid adds its record, an error ends the scan.
    The result is the records and the cache at the end. *)
Fixpoint scanEntries (entries : list Entry) (cache : gmap string Entry)
  : list Info * option error * gmap string Entry :=
  match entries with
  | [] => ([], None, cache)
  | entry :: rest =>
      match ScanEntry entry cache with
      | (_, _, Some err, cache') => ([], Some err, cache')
      | (info, valid, None, cache') =>
          match scanEntries rest cache' with
          | (infos, None, cache'') =>
              ((if valid then [info] else []) ++ infos, None, cache'')
          | failure => ([], snd (fst failure), snd failure)
          end
      end
  end.

(** Modelled from the spec: the mount-table source, which gives the raw
    entries of the host or fails. *)
Definition MountTable : Type := (list Entry + error)%type.

(** [getMounts], that is [getMountsObj.GetMounts]: the resolved records of
    one scan of the table, or the error of the retrieval. *)
Definition getMounts (table : MountTable) : list Info * option error :=
  match table with
  | inr err => ([], Some err)
  | inl entries => fst (scanEntries entries ∅)
  end.

(** [getVolumeMountPaths]: the loop appends the path of every record whose
    source is the volume's path under the mount directory; [mountPaths]
    starts as the nil slice. *)
Definition getVolumeMountPaths (table : MountTable) (mntDir volumeID : string)
  : list string * option error :=
  let mntPath := path.Join [mntDir; volumeID] in
  match getMounts table with
  | (_, Some err) => ([], Some err)
  | (minfo, None) =>
      (fold_left (fun mountPaths mi =>
                    if String.eqb (Source mi) mntPath
                    then mountPaths ++ [Path mi] else mountPaths)
                 minfo [], None)
  end.

(** ** JSON texts and the file system *)

#[local] Set Warnings "-register-all".

(** A JSON text, up to what the scanner of [encoding/json] does not keep:
    white space, indentation and the spelling of escapes.  A number that
    is written as an integer is [JNumber], any other number [JFloat]. *)
Inductive JSON : Type :=
| JNull
| JBool (b : bool)
| JNumber (z : Z)
| JFloat (literal : string)
| JString (s : string)
| JArray (items : list JSON)
| JObject (members : list (string * JSON)).

(** What a [json.Decoder] finds at the start of a file. *)
Inductive FileData : Type :=
| NoValue               (* nothing: the file is empty *)
| BadSyntax             (* bytes that are not the start of a JSON text *)
| Value (j : JSON).     (* a JSON text *)

(** A node of the file system: a directory, a file, or a file that the
    process may not open (it has no permission on it), although it can
    [stat] it. *)
Inductive Node : Type :=
| Dir
| File (data : FileData)
| Sealed (data : FileData).

(** The host's file system: the nodes by path, the paths at which a
    [stat] or an [open] fails and with what, and the files that cannot be
    written to. *)
Record FS : Type := mkFS {
  nodes : gmap string Node;
  faults : gmap string Errno;
  unwritable : gset string
}.

Definition setNodes (fs : FS) (n : gmap string Node) : FS :=
  mkFS n (faults fs) (unwritable fs).

Module os.

(** [os.Stat]; only the error is used. *)
Definition Stat (fs : FS) (name : string) : option error :=
  match faults fs !! name with
  | Some e => Some (PathError "stat" name e)
  | None =>
      match nodes fs !! name with
      | Some _ => None
      | None => Some (PathError "stat" name ENOENT)
      end
  end.

Definition IsNotExist (err : error) : bool :=
  match err with PathError _ _ ENOENT => true | _ => false end.

(** Whether the directory that is to hold [name] is there: the root and
    the working directory always are. *)
Definition parentFault (fs : FS) (name : string) : option Errno :=
  let parent := path.Dir name in
  if String.eqb parent "/" || String.eqb parent "." then None
  else
    match nodes fs !! parent with
    | Some Dir => None
    | Some _ => Some ENOTDIR
    | None => Some ENOENT
    end.

(** [os.Create]: the file is created or truncated; a directory cannot be
    opened for writing, nor a file without permission, and the directory
    of the file must be there. *)
Definition Create (fs : FS) (name : string) : FS * option error :=
  match faults fs !! name with
  | Some e => (fs, Some (PathError "open" name e))
  | None =>
      match parentFault fs name with
      | Some e => (fs, Some (PathError "open" name e))
      | None =>
          match nodes fs !! name with
          | Some Dir => (fs, Some (PathError "open" name EISDIR))
          | Some (Sealed _) => (fs, Some (PathError "open" name EACCES))
          | _ => (setNodes fs (<[name := File NoValue]> (nodes fs)), None)
          end
      end
  end.

(** [File.Write] of a whole JSON text to a file just created.  A write
    that fails is one that writes nothing, as on a device that is full
    before the first byte; a write that fails half-way and leaves a text
    cut short is not told apart. *)
Definition Write (fs : FS) (name : string) (data : FileData) : FS * option error :=
  if decide (name ∈ unwritable fs) then (fs, Some (PathError "write" name ENOSPC))
  else (setNodes fs (<[name := File data]> (nodes fs)), None).

(** [os.Open] and the read of the file by the decoder. *)
Definition Open (fs : FS) (name : string) : Node + error :=
  match faults fs !! name with
  | Some e => inr (PathError "open" name e)
  | None =>
      match nodes fs !! name with
      | Some (Sealed _) => inr (PathError "open" name EACCES)
      | Some n => inl n
      | None => inr (PathError "open" name ENOENT)
      end
  end.

End os.

(** ** The CSI messages *)

Module csi.

Record CapacityRange : Type := mkCapacityRange {
  RequiredBytes : Z;
  LimitBytes : Z
}.

Inductive AccessType : Type :=
| Block
| Mount (FsType : string) (MountFlags : list string).

Inductive Mode : Type :=
| UNKNOWN
| SINGLE_NODE_WRITER
| SINGLE_NODE_READER_ONLY
| MULTI_NODE_READER_ONLY
| MULTI_NODE_SINGLE_WRITER
| MULTI_NODE_MULTI_WRITER.

Record VolumeCapability : Type := mkVolumeCapability {
  AccessType_ : option AccessType;
  AccessMode : option Mode
}.

Record CreateVolumeRequest : Type := mkCreateVolumeRequest {
  Name : string;
  CapacityRange_ : option CapacityRange;
  VolumeCapabilities : list VolumeCapability;
  Parameters : gmap string string;
  ControllerCreateSecrets : gmap string string
}.

(** The zero value of the message. *)
Definition zeroRequest : CreateVolumeRequest :=
  mkCreateVolumeRequest "" None [] ∅ ∅.

(** [csi.Volume]. *)
Record Volume : Type := mkVolume {
  Id : string;
  CapacityBytes : Z;
  Attributes : gmap string string
}.

End csi.

(** The protobuf JSON codec, [jsonpb], of the create request: an interface
    of the program's environment.  [Unmarshal] reads the text from a
    reader, [None] being a reader with no bytes, and writes into the
    message it is given; when it fails the message may have been written
    to in part. *)
Class JSONPB : Type := {
  jsonpb_Marshal : csi.CreateVolumeRequest -> JSON + error;
  jsonpb_Unmarshal :
    option JSON -> csi.CreateVolumeRequest -> csi.CreateVolumeRequest * option error
}.

(** ** The volume record *)

Definition infoFileName : string := ".info.json".

(** [volumeInfo]; [CreateVolumeRequest] is the embedded message. *)
Record volumeInfo : Type := mkVolumeInfo {
  CreateVolumeRequest : csi.CreateVolumeRequest;
  capacityBytes : Z;
  path_ : string;
  infoPath : string
}.

Definition toCSIVolInfo (v : volumeInfo) : csi.Volume :=
  csi.mkVolume (csi.Name (CreateVolumeRequest v)) (capacityBytes v)
    (csi.Parameters (CreateVolumeRequest v)).

(** The anonymous struct of [MarshalJSON] and [UnmarshalJSON]; the
    [json.RawMessage] is [None] while it is nil. *)
Record volumeObj : Type := mkVolumeObj {
  CapacityBytes : Z;
  CreateRequest : option JSON
}.

Module json.

(** The match of an object key with a field name: equal, or equal under
    case folding. *)
Definition equalFold (name key : string) : bool :=
  String.eqb name key
  || match regexp.matchLit true (bytes name) (bytes key) with
     | Some [] => true
     | _ => false
     end.

Definition inInt64 (z : Z) : bool := ((- 2 ^ 63 <=? z) && (z <? 2 ^ 63))%Z.

(** One member of the object stored into the struct; [None] is a value
    that the field cannot hold. *)
Definition storeMember (obj : volumeObj) (m : string * JSON) : option volumeObj :=
  let '(key, val) := m in
  if equalFold "capacity_bytes" key then
    match val with
    | JNull => Some obj
    | JNumber z =>
        if inInt64 z then Some (mkVolumeObj z (CreateRequest obj)) else None
    | _ => None
    end
  else if equalFold "create_request" key then
    Some (mkVolumeObj (CapacityBytes obj) (Some val))
  else Some obj.

Fixpoint storeMembers (obj : volumeObj) (ms : list (string * JSON)) : option volumeObj :=
  match ms with
  | [] => Some obj
  | m :: ms' =>
      match storeMember obj m with
      | Some obj' => storeMembers obj' ms'
      | None => None
      end
  end.

(** [json.Unmarshal(data, &obj)] into the zero struct: the members of an
    object are stored in their order, [null] stores nothing, any other
    text is not a struct. *)
Definition Unmarshal (data : JSON) : volumeObj + error :=
  match data with
  | JNull => inl (mkVolumeObj 0 None)
  | JObject ms =>
      match storeMembers (mkVolumeObj 0 None) ms with
      | Some obj => inl obj
      | None => inr (UnmarshalTypeError "capacity_bytes")
      end
  | _ => inr (UnmarshalTypeError "")
  end.

(** [json.Marshal] of the struct: an object with the two members in the
    order of the fields. *)
Definition Marshal (obj : volumeObj) : JSON + error :=
  inl (JObject [("capacity_bytes", JNumber (CapacityBytes obj));
                ("create_request",
                  match CreateRequest obj with Some raw => raw | None => JNull end)]).

End json.

Section VolumeInfo.
Context {codec : JSONPB}.

(** [volumeInfo.MarshalJSON]. *)
Definition MarshalJSON (v : volumeInfo) : JSON + error :=
  match jsonpb_Marshal (CreateVolumeRequest v) with
  | inr err =>
      inr (Status Internal ("failed to marshal create request: " ++ Error err))
  | inl buf =>
      json.Marshal (mkVolumeObj (capacityBytes v) (Some buf))
  end.

(** [volumeInfo.UnmarshalJSON]: the record as the call leaves it, and
    the error. *)
Definition UnmarshalJSON (v : volumeInfo) (data : JSON) : volumeInfo * option error :=
  match json.Unmarshal data with
  | inr err =>
      (v, Some (Status Internal ("failed to unmarshal volume: " ++ Error err)))
  | inl obj =>
      let '(req, failed) := jsonpb_Unmarshal (CreateRequest obj) (CreateVolumeRequest v) in
      let v1 := mkVolumeInfo req (capacityBytes v) (path_ v) (infoPath v) in
      match failed with
      | Some err =>
          (v1, Some (Status Internal
                       ("failed to unmarshal create request: " ++ Error err)))
      | None =>
          (mkVolumeInfo req (CapacityBytes obj) (path_ v) (infoPath v), None)
      end
  end.

(** [enc.Encode(&v)] of [save]: the encoder calls [MarshalJSON], wraps
    its error, and writes the text; the indentation set by [SetIndent]
    does not change the text. *)
Definition Encode (fs : FS) (f : string) (v : volumeInfo) : FS * option error :=
  match MarshalJSON v with
  | inr err => (fs, Some (MarshalerError err))
  | inl j => os.Write fs f (Value j)
  end.

(** [dec.Decode(&v)] of [load]: the decoder first reads one JSON text
    and gives its own error when there is none; the literal [null] sets
    the pointer [v], local to [load], to nil and the record is not
    touched; any other text goes to [UnmarshalJSON]. *)
Definition Decode (data : Node) (v : volumeInfo) : volumeInfo * option error :=
  match data with
  | Dir => (v, Some (PathError "read" (infoPath v) EISDIR))
  | Sealed _ => (v, Some (PathError "read" (infoPath v) EACCES))
  | File NoValue => (v, Some EOF)
  | File BadSyntax => (v, Some SyntaxError)
  | File (Value JNull) => (v, None)
  | File (Value j) => UnmarshalJSON v j
  end.

(** [volumeInfo.save]. *)
Definition save (v : volumeInfo) (fs : FS) : FS * option error :=
  if String.eqb (infoPath v) "" then
    (fs, Some (Status Internal "failed to create volume info file: empty path"))
  else
    match os.Create fs (infoPath v) with
    | (_, Some err) =>
        (fs, Some (Status Internal
                     ("failed to create volume info file: " ++ infoPath v
                        ++ ": " ++ Error err)))
    | (fs1, None) => Encode fs1 (infoPath v) v
    end.

(** [volumeInfo.load]: the record as the call leaves it, and the
    error. *)
Definition load (v : volumeInfo) (fs : FS) : volumeInfo * option error :=
  if String.eqb (infoPath v) "" then
    (v, Some (Status Internal "failed to load volume info file: empty path"))
  else
    match os.Open fs (infoPath v) with
    | inr err =>
        (v, Some (Status Internal
                    ("failed to open volume info file: " ++ infoPath v
                       ++ ": " ++ Error err)))
    | inl f => Decode f v
    end.

(** [fileExists]. *)
Definition fileExists (fs : FS) (filePath : string) : bool * option error :=
  match os.Stat fs filePath with
  | None => (true, None)
  | Some err => if os.IsNotExist err then (false, None) else (false, Some err)
  end.

(** [service]: the configured directories. *)
Record service : Type := mkService {
  bindfs : string;
  data : string;
  dev : string;
  mnt : string;
  vol : string;
  volGlob : string
}.

(** [service.getVolume]: the record, [None] for the nil pointer, and
    the error. *)
Definition getVolume (s : service) (fs : FS) (idOrName : string)
  : option volumeInfo * option error :=
  let volPath := path.Join [vol s; idOrName] in
  match fileExists fs volPath with
  | (false, Some err) =>
      (None, Some (Status NotFound (volPath ++ ": " ++ Error err)))
  | (false, None) => (None, Some (Status NotFound volPath))
  | (true, _) =>
      let volInfoPath := path.Join [volPath; infoFileName] in
      match fileExists fs volInfoPath with
      | (false, Some err) =>
          (None, Some (Status NotFound (volInfoPath ++ ": " ++ Error err)))
      | (false, None) => (None, Some (Status NotFound volInfoPath))
      | (true, _) =>
          let vol := mkVolumeInfo csi.zeroRequest 0 volPath volInfoPath in
          match load vol fs with
          | (_, Some err) => (None, Some err)
          | (vol', None) => (Some vol', None)
          end
      end
  end.

End VolumeInfo.

(** ** The codec of the create request

    [jsonpb] as [MarshalJSON] and [UnmarshalJSON] use it: a [Marshaler]
    and an [Unmarshaler] with no option set.

    The marshaler writes the members by their lowerCamelCase names,
    64-bit integers as decimal strings, enum values by name, the keys of
    a map in their order, and leaves out a member that has the default
    value.  Every string goes through the string encoder of
    [encoding/json], which writes U+FFFD for a byte that is not part of
    well-formed UTF-8.

    The unmarshaler takes a member by its lowerCamelCase name or by its
    name in the proto file, the former first; a member that is absent or
    null leaves the field as it is, any other value replaces what the
    field held; a member that is not known is an error, and so is a value
    of the wrong shape; of two members with one name the later counts.
    The text null for the whole message is read with success and changes
    nothing.

    Where the model is coarser than the library: an empty list or map is
    not told apart from a nil one; a null in a list of capabilities, or
    for block or mount, is read as the zero message where the library
    stores a nil pointer; when block and mount are both given the library
    keeps one or the other and the model mount; a number that names no
    access mode is refused where the library stores it; white space
    around a quoted number is not read; and after a failure the message
    is given back as it was, where the library may have written part of
    it. *)

Module canonical.

Definition decimal (z : Z) : string := NilEmpty.string_of_int (Z.to_int z).

Definition parseDecimal (s : string) : option Z :=
  Z.of_int <$> NilEmpty.int_of_string s.

(** A member that is written unless its value is the default. *)
Definition member (key : string) (isDefault : bool) (val : JSON)
  : list (string * JSON) :=
  if isDefault then [] else [(key, val)].

(** The value of the member [key]: the object is read into a Go map, so
    the last member of that name counts. *)
Fixpoint assoc (key : string) (ms : list (string * JSON)) : option JSON :=
  match ms with
  | [] => None
  | (k, j) :: ms' =>
      match assoc key ms' with
      | Some later => Some later
      | None => if String.eqb k key then Some j else None
      end
  end.

(** [consumeField]: the member by its lowerCamelCase name, or else by
    its name in the proto file. *)
Definition consumeField (camel orig : string) (ms : list (string * JSON))
  : option JSON :=
  match assoc camel ms with
  | Some j => Some j
  | None => assoc orig ms
  end.

(** A field read from its member with [dec]: it stays as it is when the
    member is absent or null. *)
Definition field {A} (dec : JSON -> option A) (current : A) (raw : option JSON)
  : option A :=
  match raw with
  | None | Some JNull => Some current
  | Some j => dec j
  end.

(** An element of a list or a value of a map, read into the zero value. *)
Definition element {A} (dec : JSON -> option A) (zero : A) (raw : JSON) : option A :=
  field dec zero (Some raw).

Definition knownOnly (known : list string) (ms : list (string * JSON)) : bool :=
  forallb (fun m => existsb (String.eqb (fst m)) known) ms.

Definition isEmpty {A} (l : list A) : bool :=
  match l with [] => true | _ => false end.

Definition encInt64 (z : Z) : JSON := JString (decimal z).

(** An int64: a number, or a string whose quotes are dropped and that is
    then read as a number: digits with no sign but a minus and no leading
    zero, in the range of the type; the string null, read without its
    quotes, stores nothing. *)
Definition decInt64 (j : JSON) : option Z :=
  match j with
  | JNumber z => if json.inInt64 z then Some z else None
  | JString s =>
      match parseDecimal s with
      | Some z =>
          if (String.eqb (decimal z) s || String.eqb s "-0") && json.inInt64 z
          then Some z else None
      | None => if String.eqb s "null" then Some 0%Z else None
      end
  | _ => None
  end.

Definition encString (s : string) : JSON := JString (utf8.ToValid s).

Definition decString (j : JSON) : option string :=
  match j with JString s => Some s | _ => None end.

Definition encStrings (l : list string) : JSON := JArray (encString <$> l).

Definition decStrings (j : JSON) : option (list string) :=
  match j with JArray items => mapM (element decString "") items | _ => None end.

(** The order of the keys of a map: [sort.Sort] on the keys as strings of
    bytes. *)
Definition keyLe (a b : string * string) : Prop :=
  Is_true (String.leb (fst a) (fst b)).

#[export] Instance keyLe_dec (a b : string * string) : Decision (keyLe a b) :=
  Is_true_dec (String.leb (fst a) (fst b)).

(** The members of a map as it is written: in the order of the keys, key
    and value each through the string encoder. *)
Definition mapMembers (m : gmap string string) : list (string * string) :=
  (fun kv => (utf8.ToValid (fst kv), utf8.ToValid (snd kv)))
    <$> merge_sort keyLe (map_to_list m).

Definition encMap (m : gmap string string) : JSON :=
  JObject ((fun kv => (fst kv, JString (snd kv))) <$> mapMembers m).

(** The members of an object stored into a fresh map in their order. *)
Definition mapOfMembers (ms : list (string * string)) : gmap string string :=
  list_to_map (reverse ms).

Definition decMap (j : JSON) : option (gmap string string) :=
  match j with
  | JObject ms =>
      mapOfMembers
        <$> mapM (fun kj => pair (fst kj) <$> element decString "" (snd kj)) ms
  | _ => None
  end.

Definition encCapacityRange (c : csi.CapacityRange) : JSON :=
  JObject
    (member "requiredBytes" (csi.RequiredBytes c =? 0)%Z (encInt64 (csi.RequiredBytes c))
     ++ member "limitBytes" (csi.LimitBytes c =? 0)%Z (encInt64 (csi.LimitBytes c))).

Definition decCapacityRange (j : JSON) : option csi.CapacityRange :=
  match j with
  | JObject ms =>
      r ← field decInt64 0%Z (consumeField "requiredBytes" "required_bytes" ms);
      l ← field decInt64 0%Z (consumeField "limitBytes" "limit_bytes" ms);
      if knownOnly ["requiredBytes"; "required_bytes"; "limitBytes"; "limit_bytes"] ms
      then Some (csi.mkCapacityRange r l) else None
  | _ => None
  end.

Definition modeName (m : csi.Mode) : string :=
  match m with
  | csi.UNKNOWN => "UNKNOWN"
  | csi.SINGLE_NODE_WRITER => "SINGLE_NODE_WRITER"
  | csi.SINGLE_NODE_READER_ONLY => "SINGLE_NODE_READER_ONLY"
  | csi.MULTI_NODE_READER_ONLY => "MULTI_NODE_READER_ONLY"
  | csi.MULTI_NODE_SINGLE_WRITER => "MULTI_NODE_SINGLE_WRITER"
  | csi.MULTI_NODE_MULTI_WRITER => "MULTI_NODE_MULTI_WRITER"
  end.

Definition modeNumber (m : csi.Mode) : Z :=
  match m with
  | csi.UNKNOWN => 0
  | csi.SINGLE_NODE_WRITER => 1
  | csi.SINGLE_NODE_READER_ONLY => 2
  | csi.MULTI_NODE_READER_ONLY => 3
  | csi.MULTI_NODE_SINGLE_WRITER => 4
  | csi.MULTI_NODE_MULTI_WRITER => 5
  end.

Definition allModes : list csi.Mode :=
  [csi.UNKNOWN; csi.SINGLE_NODE_WRITER; csi.SINGLE_NODE_READER_ONLY;
   csi.MULTI_NODE_READER_ONLY; csi.MULTI_NODE_SINGLE_WRITER;
   csi.MULTI_NODE_MULTI_WRITER].

(** An enum value: by its name, or by its number. *)
Definition decMode (j : JSON) : option csi.Mode :=
  match j with
  | JString s => find (fun m => String.eqb (modeName m) s) allModes
  | JNumber z => find (fun m => (modeNumber m =? z)%Z) allModes
  | _ => None
  end.

Definition isUnknown (m : csi.Mode) : bool :=
  match m with csi.UNKNOWN => true | _ => false end.

Definition encAccessMode (m : csi.Mode) : JSON :=
  JObject (member "mode" (isUnknown m) (JString (modeName m))).

Definition decAccessMode (j : JSON) : option csi.Mode :=
  match j with
  | JObject ms =>
      m ← field decMode csi.UNKNOWN (assoc "mode" ms);
      if knownOnly ["mode"] ms then Some m else None
  | _ => None
  end.

Definition encMount (fsType : string) (flags : list string) : JSON :=
  JObject
    (member "fsType" (String.eqb fsType "") (encString fsType)
     ++ member "mountFlags" (isEmpty flags) (encStrings flags)).

Definition decMount (j : JSON) : option csi.AccessType :=
  match j with
  | JObject ms =>
      t ← field decString "" (consumeField "fsType" "fs_type" ms);
      f ← field decStrings [] (consumeField "mountFlags" "mount_flags" ms);
      if knownOnly ["fsType"; "fs_type"; "mountFlags"; "mount_flags"] ms
      then Some (csi.Mount t f) else None
  | _ => None
  end.

Definition decBlock (j : JSON) : option csi.AccessType :=
  match j with
  | JObject ms => if knownOnly [] ms then Some csi.Block else None
  | _ => None
  end.

Definition encCapability (c : csi.VolumeCapability) : JSON :=
  JObject
    (match csi.AccessType_ c with
     | None => []
     | Some csi.Block => [("block", JObject [])]
     | Some (csi.Mount t f) => [("mount", encMount t f)]
     end
     ++ match csi.AccessMode c with
        | None => []
        | Some m => [("accessMode", encAccessMode m)]
        end).

Definition zeroCapability : csi.VolumeCapability := csi.mkVolumeCapability None None.

Definition decCapability (j : JSON) : option csi.VolumeCapability :=
  match j with
  | JObject ms =>
      m ← field (fun a => Some <$> decAccessMode a) None
            (consumeField "accessMode" "access_mode" ms);
      t ← match assoc "mount" ms, assoc "block" ms with
          | Some mount, _ => Some <$> element decMount (csi.Mount "" []) mount
          | None, Some block => Some <$> element decBlock csi.Block block
          | None, None => Some None
          end;
      if knownOnly ["accessMode"; "access_mode"; "block"; "mount"] ms
      then Some (csi.mkVolumeCapability t m) else None
  | _ => None
  end.

Definition decCapabilities (j : JSON) : option (list csi.VolumeCapability) :=
  match j with
  | JArray items => mapM (element decCapability zeroCapability) items
  | _ => None
  end.

Definition isEmptyMap (m : gmap string string) : bool := isEmpty (map_to_list m).

Definition encRequest (r : csi.CreateVolumeRequest) : JSON :=
  JObject
    (member "name" (String.eqb (csi.Name r) "") (encString (csi.Name r))
     ++ match csi.CapacityRange_ r with
        | None => []
        | Some c => [("capacityRange", encCapacityRange c)]
        end
     ++ member "volumeCapabilities" (isEmpty (csi.VolumeCapabilities r))
          (JArray (encCapability <$> csi.VolumeCapabilities r))
     ++ member "parameters" (isEmptyMap (csi.Parameters r))
          (encMap (csi.Parameters r))
     ++ member "controllerCreateSecrets" (isEmptyMap (csi.ControllerCreateSecrets r))
          (encMap (csi.ControllerCreateSecrets r))).

(** The members of an object read into the message [into]. *)
Definition decRequest (into : csi.CreateVolumeRequest) (ms : list (string * JSON))
  : option csi.CreateVolumeRequest :=
  n ← field decString (csi.Name into) (assoc "name" ms);
  c ← field (fun cr => Some <$> decCapacityRange cr) (csi.CapacityRange_ into)
        (consumeField "capacityRange" "capacity_range" ms);
  v ← field decCapabilities (csi.VolumeCapabilities into)
        (consumeField "volumeCapabilities" "volume_capabilities" ms);
  p ← field decMap (csi.Parameters into) (assoc "parameters" ms);
  s ← field decMap (csi.ControllerCreateSecrets into)
        (consumeField "controllerCreateSecrets" "controller_create_secrets" ms);
  if knownOnly ["name"; "capacityRange"; "capacity_range"; "volumeCapabilities";
                "volume_capabilities"; "parameters"; "controllerCreateSecrets";
                "controller_create_secrets"] ms
  then Some (csi.mkCreateVolumeRequest n c v p s) else None.

(** [Marshaler.Marshal]: a message of this type is always written. *)
Definition Marshal (r : csi.CreateVolumeRequest) : JSON + error :=
  inl (encRequest r).

(** [jsonpb.Unmarshal]. *)
Definition Unmarshal (raw : option JSON) (into : csi.CreateVolumeRequest)
  : csi.CreateVolumeRequest * option error :=
  match raw with
  | None => (into, Some EOF)
  | Some JNull => (into, None)
  | Some (JObject ms) =>
      match decRequest into ms with
      | Some r => (r, None)
      | None => (into, Some (OtherError "jsonpb: cannot unmarshal the create request"))
      end
  | Some _ => (into, Some (UnmarshalTypeError ""))
  end.

#[export] Instance codec : JSONPB :=
  {| jsonpb_Marshal := Marshal; jsonpb_Unmarshal := Unmarshal |}.

(** *** What a reader finds of a message that was written

    A string comes back as the string encoder wrote it, a map as the map
    of its members as written. *)

Definition readBackMap (m : gmap string string) : gmap string string :=
  mapOfMembers (mapMembers m).

Definition readBackAccessType (t : csi.AccessType) : csi.AccessType :=
  match t with
  | csi.Block => csi.Block
  | csi.Mount fsType flags => csi.Mount (utf8.ToValid fsType) (utf8.ToValid <$> flags)
  end.

Definition readBackCapability (c : csi.VolumeCapability) : csi.VolumeCapability :=
  csi.mkVolumeCapability (readBackAccessType <$> csi.AccessType_ c) (csi.AccessMode c).

Definition readBack (r : csi.CreateVolumeRequest) : csi.CreateVolumeRequest :=
  csi.mkCreateVolumeRequest
    (utf8.ToValid (csi.Name r))
    (csi.CapacityRange_ r)
    (readBackCapability <$> csi.VolumeCapabilities r)
    (readBackMap (csi.Parameters r))
    (readBackMap (csi.ControllerCreateSecrets r)).

(** The integers of the message are int64 in the program. *)
Definition int64s (r : csi.CreateVolumeRequest) : bool :=
  match csi.CapacityRange_ r with
  | None => true
  | Some c => json.inInt64 (csi.RequiredBytes c) && json.inInt64 (csi.LimitBytes c)
  end.

(** The keys and the values of the map are well-formed UTF-8. *)
Definition validMap (m : gmap string string) : Prop :=
  forall k v, m !! k = Some v ->
    utf8.ValidString k = true /\ utf8.ValidString v = true.

End canonical.

(** ** The words of the specification *)

Definition isSome {A} (o : option A) : bool :=
  match o with Some _ => true | None => false end.

(** [t] begins with [w], contains [w], ends with [w], letters compared
    without regard to case the way (?i) does. *)
Definition startsWithFold (w t : string) : bool :=
  isSome (regexp.matchLit true (bytes w) (bytes t)).

Definition containsFold (w t : string) : bool :=
  existsb (fun suf => isSome (regexp.matchLit true (bytes w) suf)) (tails (bytes t)).

Definition endsWithFold (w t : string) : bool :=
  existsb (fun suf => match regexp.matchLit true (bytes w) suf with
                      | Some [] => true
                      | _ => false
                      end) (tails (bytes t)).

(** The relevant filesystem types in words: a type that begins with
    devtmpfs, contains "fuse." or nfs, or ends with overlay. *)
Definition relevantFSType (t : string) : bool :=
  startsWithFold "devtmpfs" t || containsFold "fuse." t
  || containsFold "nfs" t || endsWithFold "overlay" t.

(** [t] contains [w], a word in lower case, when its ASCII letters are
    put in lower case. *)
Definition containsNoCase (w t : string) : Prop :=
  exists pre mid post,
    bytes t = pre ++ mid ++ post /\ map toLower mid = bytes w.

(** A word found in a text without regard to case, said without the
    pattern: [spells w mid] when the bytes [mid] are the word [w], which
    is in small letters, with each letter in either case; for s and k
    the text may also have the long s (U+017F) and the Kelvin sign
    (U+212A), the two letters outside ASCII whose case folding is an ASCII
    letter. *)
Definition longS : list ascii := [byte 197; byte 191].
Definition kelvin : list ascii := [byte 226; byte 132; byte 170].

Inductive spells : list ascii -> list ascii -> Prop :=
| spells_end : spells [] []
| spells_letter c x w mid :
    toLower x = c -> spells w mid -> spells (c :: w) (x :: mid)
| spells_longS w mid : spells w mid -> spells ("s"%char :: w) (longS ++ mid)
| spells_kelvin w mid : spells w mid -> spells ("k"%char :: w) (kelvin ++ mid).

Definition beginsIgnoringCase (w t : string) : Prop :=
  exists mid post, bytes t = mid ++ post /\ spells (bytes w) mid.

Definition containsIgnoringCase (w t : string) : Prop :=
  exists pre mid post, bytes t = pre ++ mid ++ post /\ spells (bytes w) mid.

Definition endsIgnoringCase (w t : string) : Prop :=
  exists pre mid, bytes t = pre ++ mid /\ spells (bytes w) mid.

(** The relevant types as the specification lists them: the virtual
    device filesystem, the filesystems backed by FUSE, the variants of
    NFS, the overlay filesystems. *)
Definition relevantTypeIgnoringCase (t : string) : Prop :=
  beginsIgnoringCase "devtmpfs" t \/ containsIgnoringCase "fuse." t
  \/ containsIgnoringCase "nfs" t \/ endsIgnoringCase "overlay" t.

(** The relevance test of [ScanEntry]. *)
Definition relevant (entry : Entry) : bool :=
  regexp.MatchString fsTypePattern (FSType entry)
  || HasPrefix (MountSource entry) "/".

(** The record of an entry before its source is resolved. *)
Definition infoOf (entry : Entry) : Info :=
  mkInfo (MountSource entry) (MountPoint entry) (MountSource entry)
    (FSType entry) (MountOpts entry).

(** ** Scenarios

    The mount tables, records and volume roots that the claims are tried
    on. *)

(** The entries of the root-fragment scenario of the specification. *)
Definition vol1Mount : Entry := mkEntry "/" "/mnt/vol1" ["rw"] "ext4" "/dev/sda1".
Definition vol1Published : Entry :=
  mkEntry "/subdir" "/published/x" ["rw"] "ext4" "/dev/sda1".

(** The entries of the single-anchor scenario of the specification. *)
Definition anchorA (fsType : string) (opts : list string) : Entry :=
  mkEntry "/" "/a" opts fsType "/dev/sda1".
Definition anchorB (fsType : string) (opts : list string) : Entry :=
  mkEntry "/" "/b" opts fsType "/dev/sda1".

(** A record and a volume directory to try the store on. *)
Definition vol1Info : volumeInfo :=
  mkVolumeInfo
    (csi.mkCreateVolumeRequest "vol1" (Some (csi.mkCapacityRange 1024 0))
       [csi.mkVolumeCapability (Some (csi.Mount "ext4" ["ro"]))
          (Some csi.SINGLE_NODE_WRITER)]
       {["tier" := "fast"]} ∅)
    1024 "/vol/vol1" "/vol/vol1/.info.json".

Definition volRoot : FS := mkFS {["/vol" := Dir; "/vol/vol1" := Dir]} ∅ ∅.

Definition vfs : service := mkService "bindfs" "/data" "/dev" "/mnt" "/vol" "*".

(** A volume root where the [stat] of the directory of vol1 is denied. *)
Definition volRootDenied : FS :=
  mkFS {["/vol" := Dir; "/vol/vol1" := Dir]} {["/vol/vol1" := EACCES]} ∅.

(** A volume root where the info file of vol1 holds bytes that are not a
    JSON text, and one where the info file cannot be written. *)
Definition volRootGarbled : FS :=
  mkFS {["/vol" := Dir; "/vol/vol1" := Dir;
         "/vol/vol1/.info.json" := File BadSyntax]} ∅ ∅.

Definition volRootFull : FS :=
  mkFS {["/vol" := Dir; "/vol/vol1" := Dir]} ∅ {["/vol/vol1/.info.json"]}.

Definition volRootWrongShape : FS :=
  mkFS {["/vol" := Dir; "/vol/vol1" := Dir;
         "/vol/vol1/.info.json" := File (Value (JArray []))]} ∅ ∅.

Definition blankInfo (dir file : string) : volumeInfo :=
  mkVolumeInfo csi.zeroRequest 0 dir file.



(** A volume root where the info file of vol1 is there and cannot be
    opened. *)
Definition volRootSealed : FS :=
  mkFS {["/vol" := Dir; "/vol/vol1" := Dir;
         "/vol/vol1/.info.json" := Sealed (Value JNull)]} ∅ ∅.

(** ** The resolver without the cache

    What the scan computes, said without the cache: the anchor of a source
    among the entries that came earlier is the first relevant one with
    that source. *)

Definition firstSeen (earlier : list Entry) (src : string) : option Entry :=
  List.find (fun e => relevant e && String.eqb (MountSource e) src) earlier.

Definition resolvedSource (earlier : list Entry) (entry : Entry) : string :=
  match firstSeen earlier (MountSource entry) with
  | Some anchor => path.Join [MountPoint anchor; Root entry]
  | None => MountSource entry
  end.

Fixpoint resolveFrom (earlier entries : list Entry) : list Info :=
  match entries with
  | [] => []
  | entry :: rest =>
      (if relevant entry
       then [setSource (infoOf entry) (resolvedSource earlier entry)] else [])
        ++ resolveFrom (earlier ++ [entry]) rest
  end.

(** The cache agrees with [firstSeen] on the entries scanned so far. *)
Definition cacheOf (cache : gmap string Entry) (earlier : list Entry) : Prop :=
  forall src, cache !! src = firstSeen earlier src.

(** ** Start-up: [New] and [BeforeServe] *)

(** [New]: the zero service. *)
Definition New : service := mkService "" "" "" "" "" "".

(** An interceptor of the storage plug-in: the method value
    [s.validateVolumeCapabilities], or one that was registered before. *)
Inductive Interceptor : Type :=
| validateVolumeCapabilities
| registered (name : string).

(** [gocsi.StoragePlugin], of which [BeforeServe] touches the
    interceptors only. *)
Record StoragePlugin : Type := mkStoragePlugin {
  Interceptors : list Interceptor
}.

(** [csictx.LookupEnv]: the value and whether the variable is set. *)
Definition LookupEnv (env : gmap string string) (key : string) : string * bool :=
  match env !! key with
  | Some v => (v, true)
  | None => ("", false)
  end.

(** The two directory operations of the host that [BeforeServe] calls,
    [os.MkdirAll] and [gofsutil.EvalSymlinks]: an interface of the
    program's environment.  [EvalSymlinks] gives the real path that it
    writes through its pointer argument. *)
Class HostDirs : Type := {
  MkdirAll : FS -> string -> FS * option error;
  EvalSymlinks : FS -> string -> string + error
}.

Definition setBindfs (s : service) (v : string) : service :=
  mkService v (data s) (dev s) (mnt s) (vol s) (volGlob s).
Definition setData (s : service) (v : string) : service :=
  mkService (bindfs s) v (dev s) (mnt s) (vol s) (volGlob s).
Definition setDev (s : service) (v : string) : service :=
  mkService (bindfs s) (data s) v (mnt s) (vol s) (volGlob s).
Definition setMnt (s : service) (v : string) : service :=
  mkService (bindfs s) (data s) (dev s) v (vol s) (volGlob s).
Definition setVol (s : service) (v : string) : service :=
  mkService (bindfs s) (data s) (dev s) (mnt s) v (volGlob s).
Definition setVolGlob (s : service) (v : string) : service :=
  mkService (bindfs s) (data s) (dev s) (mnt s) (vol s) v.

(** [if v, ok := csictx.LookupEnv(ctx, name); ok { field = v }]. *)
Definition fromEnv (env : gmap string string) (name : string)
  (set : service -> string -> service) (s : service) : service :=
  let '(v, ok) := LookupEnv env name in
  if ok then set s v else s.

Section Startup.
(** The names of the environment variables, constants of the package that
    are declared in another file. *)
Variables EnvVarDataDir EnvVarDevDir EnvVarMntDir EnvVarVolDir
          EnvVarVolGlob EnvVarBindFS : string.
Context {host : HostDirs}.

(** The data directory when none is configured: under HOME, or else under
    USER_PROFILE, or else still empty. *)
Definition defaultData (env : gmap string string) (s : service) : service :=
  if String.eqb (data s) "" then
    if negb (String.eqb (fst (LookupEnv env "HOME")) "") then
      setData s (path.Join [fst (LookupEnv env "HOME"); ".csi-vfs"])
    else if negb (String.eqb (fst (LookupEnv env "USER_PROFILE")) "") then
      setData s (path.Join [fst (LookupEnv env "USER_PROFILE"); ".csi-vfs"])
    else s
  else s.

(** The last part of [BeforeServe], which cannot fail: the glob, the
    bind tool and the interceptor. *)
Definition finishServe (env : gmap string string) (s : service) (sp : StoragePlugin)
  : service * StoragePlugin :=
  let s := fromEnv env EnvVarVolGlob setVol s in
  let s := if String.eqb (volGlob s) "" then setVolGlob s "*" else s in
  let s := setVolGlob s (path.Join [vol s; volGlob s; infoFileName]) in
  let s := fromEnv env EnvVarBindFS setBindfs s in
  let s := if String.eqb (bindfs s) "" then setBindfs s "bindfs" else s in
  (s, mkStoragePlugin (Interceptors sp ++ [validateVolumeCapabilities])).

(** [service.BeforeServe]: the service and the plug-in as the call leaves
    them, the file system, and the error.  The receiver is a pointer, so
    what was assigned before a failure stays assigned.  The deferred call
    logs the fields of the service as they are at the return. *)
Definition BeforeServe (env : gmap string string) (s : service) (fs : FS)
  (sp : StoragePlugin) : service * FS * StoragePlugin * option error :=
  let s := fromEnv env EnvVarDataDir setData s in
  let s := defaultData env s in
  match MkdirAll fs (data s) with
  | (fs, Some err) => (s, fs, sp, Some err)
  | (fs, None) =>
  match EvalSymlinks fs (data s) with
  | inr err => (s, fs, sp, Some err)
  | inl real =>
  let s := setData s real in
  let s := fromEnv env EnvVarDevDir setDev s in
  let s := if String.eqb (dev s) "" then setDev s (path.Join [data s; "dev"]) else s in
  match MkdirAll fs (dev s) with
  | (fs, Some err) => (s, fs, sp, Some err)
  | (fs, None) =>
  match EvalSymlinks fs (dev s) with
  | inr err => (s, fs, sp, Some err)
  | inl real =>
  let s := setDev s real in
  let s := fromEnv env EnvVarMntDir setMnt s in
  let s := if String.eqb (mnt s) "" then setMnt s (path.Join [data s; "mnt"]) else s in
  match MkdirAll fs (mnt s) with
  | (fs, Some err) => (s, fs, sp, Some err)
  | (fs, None) =>
  match EvalSymlinks fs (mnt s) with
  | inr err => (s, fs, sp, Some err)
  | inl real =>
  let s := setMnt s real in
  let s := fromEnv env EnvVarVolDir setVol s in
  let s := if String.eqb (vol s) "" then setVol s (path.Join [data s; "vol"]) else s in
  match MkdirAll fs (vol s) with
  | (fs, Some err) => (s, fs, sp, Some err)
  | (fs, None) =>
  match EvalSymlinks fs (vol s) with
  | inr err => (s, fs, sp, Some err)
  | inl real =>
  let s := setVol s real in
  let '(s, sp) := finishServe env s sp in
  (s, fs, sp, None)
  end end end end end end end end.

End Startup.

(** A setting after its environment variable was looked at, and a path
    with its default: the words for what [BeforeServe] assigns. *)
Definition configured (env : gmap string string) (name current : string) : string :=
  match env !! name with Some v => v | None => current end.

Definition orDefault (v default : string) : string :=
  if String.eqb v "" then default else v.

(** The data directory that [BeforeServe] makes: the configured one, or
    else the one under HOME, or else the one under USER_PROFILE, or else
    the empty path. *)
Definition chosenData (env : gmap string string) (name current : string) : string :=
  orDefault (configured env name current)
    (if negb (String.eqb (configured env "HOME" "") "") then
       path.Join [configured env "HOME" ""; ".csi-vfs"]
     else if negb (String.eqb (configured env "USER_PROFILE" "") "") then
       path.Join [configured env "USER_PROFILE" ""; ".csi-vfs"]
     else "").

(** A codec that cannot write the create request. *)
Module failing.

#[export] Instance codec : JSONPB :=
  Build_JSONPB
    (fun _ => inr (OtherError "proto: required field not set"))
    (fun _ into => (into, Some (OtherError "proto: syntax error"))).

End failing.

(** A host without symbolic links, on the file system of this file.
    [MkdirAll] makes the directory and the directories above it that are
    not there; it fails on the empty path, on a path that is faulty and
    on one that leads through a file.  [EvalSymlinks] gives the clean
    path of a node that exists. *)
Module plainHost.

(** The directories on the way to a clean path, from the top, the path
    itself the last. *)
Fixpoint ancestors (above rest : list ascii) : list string :=
  match rest with
  | [] => [str above]
  | c :: rest' =>
      (if Ascii.eqb c path.slash && negb (canonical.isEmpty above)
       then [str above] else [])
        ++ ancestors (above ++ [c]) rest'
  end.

(** The root and the working directory are always there. *)
Definition given (name : string) : bool :=
  String.eqb name "/" || String.eqb name ".".

(** [os.Mkdir] unless the directory is there. *)
Definition mkdir (fs : FS) (name : string) : FS * option error :=
  if given name then (fs, None)
  else
    match faults fs !! name with
    | Some e => (fs, Some (PathError "mkdir" name e))
    | None =>
        match nodes fs !! name with
        | Some Dir => (fs, None)
        | Some _ => (fs, Some (PathError "mkdir" name ENOTDIR))
        | None => (setNodes fs (<[name := Dir]> (nodes fs)), None)
        end
    end.

Fixpoint mkdirs (fs : FS) (names : list string) : FS * option error :=
  match names with
  | [] => (fs, None)
  | name :: names' =>
      match mkdir fs name with
      | (fs1, None) => mkdirs fs1 names'
      | failed => failed
      end
  end.

Definition MkdirAll (fs : FS) (name : string) : FS * option error :=
  if String.eqb name "" then (fs, Some (PathError "mkdir" "" ENOENT))
  else mkdirs fs (ancestors [] (bytes (path.Clean name))).

Definition EvalSymlinks (fs : FS) (name : string) : string + error :=
  let real := path.Clean name in
  if String.eqb name "" then inr (PathError "lstat" "" ENOENT)
  else if given real then inl real
  else
    match faults fs !! real with
    | Some e => inr (PathError "lstat" real e)
    | None =>
        match nodes fs !! real with
        | Some _ => inl real
        | None => inr (PathError "lstat" real ENOENT)
        end
    end.

#[export] Instance host : HostDirs := Build_HostDirs MkdirAll EvalSymlinks.

End plainHost.

(** ** Scenarios of a start

    The service of [New] started on the plain host, with the names that
    the package gives to its environment variables and a plug-in that
    has one interceptor already. *)

Definition serve (env : gmap string string) (fs : FS)
  : service * FS * StoragePlugin * option error :=
  BeforeServe "X_CSI_VFS_DATA" "X_CSI_VFS_DEV" "X_CSI_VFS_MNT" "X_CSI_VFS_VOL"
    "X_CSI_VFS_VOL_GLOB" "X_CSI_VFS_BINDFS" (host := plainHost.host)
    env New fs (mkStoragePlugin [registered "logging"]).

Definition homeEnv : gmap string string := {["HOME" := "/home/csi"]}.

Definition globEnv : gmap string string :=
  {["HOME" := "/home/csi"; "X_CSI_VFS_VOL_GLOB" := "/srv/volumes"]}.

Definition bareHost : FS := mkFS ∅ ∅ ∅.

Definition deniedHost : FS := mkFS ∅ {["/home/csi/.csi-vfs/mnt" := EACCES]} ∅.

(** * Properties of the embedding *)

(** ** [Clean] and [Join] on the examples of Go's documentation *)

Example clean1 : path.Clean "/a//" = "/a". Proof. reflexivity. Qed.
Example clean2 : path.Clean "a/../../b/./c/" = "../b/c". Proof. reflexivity. Qed.
Example clean3 : path.Clean "/../a/b/../c" = "/a/c". Proof. reflexivity. Qed.
Example clean4 : path.Clean "abc/def/../.." = ".". Proof. reflexivity. Qed.
Example clean5 : path.Clean "../../abc" = "../../abc". Proof. reflexivity. Qed.
Example clean6 : path.Clean "abc/./../def" = "def". Proof. reflexivity. Qed.
Example clean7 : path.Clean "/abc/def/../../.." = "/". Proof. reflexivity. Qed.
Example clean8 : path.Clean "abc/../../././../def" = "../../def". Proof. reflexivity. Qed.
Example dir1 : path.Dir "/a/b/c" = "/a/b". Proof. reflexivity. Qed.
Example dir2 : path.Dir "a/b/c" = "a/b". Proof. reflexivity. Qed.
Example dir3 : path.Dir "/a/" = "/a". Proof. reflexivity. Qed.
Example dir4 : path.Dir "/" = "/". Proof. reflexivity. Qed.
Example dir5 : path.Dir "" = ".". Proof. reflexivity. Qed.
Example dir6 : path.Dir ".info.json" = ".". Proof. reflexivity. Qed.
Example join1 : path.Join ["/mnt/vol1"; "/subdir"] = "/mnt/vol1/subdir". Proof. reflexivity. Qed.
Example join2 : path.Join [""; "a"; ""] = "a". Proof. reflexivity. Qed.

(** ** The string encoder on bytes that are and are not UTF-8 *)

Example valid_ascii : utf8.ValidString "fast" = true.
Proof. reflexivity. Qed.
Example valid_two_bytes : utf8.ValidString (str [byte 195; byte 169]) = true.
Proof. reflexivity. Qed.
Example valid_four_bytes :
  utf8.ValidString (str [byte 240; byte 159; byte 146; byte 190]) = true.
Proof. reflexivity. Qed.
Example invalid_lone_byte : utf8.ToValid (str [byte 255]) = str utf8.replacement.
Proof. reflexivity. Qed.
Example invalid_overlong :
  utf8.ToValid (str [byte 192; byte 128]) = str (utf8.replacement ++ utf8.replacement).
Proof. reflexivity. Qed.
Example invalid_surrogate :
  utf8.ValidString (str [byte 237; byte 160; byte 128]) = false.
Proof. reflexivity. Qed.
Example invalid_cut_short :
  utf8.ToValid (str [byte 97; byte 226; byte 130])
  = str ([byte 97] ++ utf8.replacement ++ utf8.replacement).
Proof. reflexivity. Qed.
Example replacement_is_valid : utf8.ValidString (str utf8.replacement) = true.
Proof. reflexivity. Qed.

(** ** The relevance pattern *)

Section PatternFacts.
Import regexp.

Lemma nonEmpty_app {A} (a b : list A) :
  nonEmpty (a ++ b) = nonEmpty a || nonEmpty b.
Proof. destruct a; reflexivity. Qed.

Lemma nonEmpty_lit_star n f w r s :
  nonEmpty (ends n (Cat (Lit f w) (Star r)) s) = isSome (matchLit f w s).
Proof.
  cbn [ends]. destruct (matchLit f w s) as [s'|]; [|reflexivity].
  cbn. destruct (length s'); reflexivity.
Qed.

Lemma nonEmpty_lit_quest n f w r s :
  nonEmpty (ends n (Cat (Lit f w) (Quest r)) s) = isSome (matchLit f w s).
Proof.
  cbn [ends]. destruct (matchLit f w s) as [s'|]; [|reflexivity].
  cbn. rewrite !nonEmpty_app. cbn.
  rewrite orb_true_r. reflexivity.
Qed.

Lemma nonEmpty_lit_end n f w s :
  nonEmpty (ends n (Cat (Lit f w) EndText) s)
  = match matchLit f w s with Some [] => true | _ => false end.
Proof.
  cbn [ends]. destruct (matchLit f w s) as [[|c s']|]; reflexivity.
Qed.

Lemma nonEmpty_begin_lit n f w s :
  nonEmpty (ends n (Cat BeginText (Lit f w)) s)
  = (length s =? n)%nat && isSome (matchLit f w s).
Proof.
  cbn [ends]. destruct (length s =? n)%nat; [|reflexivity].
  cbn [flat_map ends]. rewrite app_nil_r.
  destruct (matchLit f w s); reflexivity.
Qed.

Lemma nonEmpty_fsTypePattern n s :
  nonEmpty (ends n fsTypePattern s)
  = (length s =? n)%nat && isSome (matchLit true (bytes "devtmpfs") s)
    || isSome (matchLit true (bytes "fuse.") s)
    || isSome (matchLit true (bytes "nfs") s)
    || match matchLit true (bytes "overlay") s with Some [] => true | _ => false end.
Proof.
  unfold fsTypePattern.
  change (ends n (Alt ?a ?b) s) with (ends n a s ++ ends n b s).
  rewrite nonEmpty_app, nonEmpty_begin_lit.
  change (ends n (Alt ?a ?b) s) with (ends n a s ++ ends n b s).
  rewrite nonEmpty_app, nonEmpty_lit_star.
  change (ends n (Alt ?a ?b) s) with (ends n a s ++ ends n b s).
  rewrite nonEmpty_app, nonEmpty_lit_quest, nonEmpty_lit_end.
  rewrite !orb_assoc. reflexivity.
Qed.

Lemma existsb_orb {A} (f g : A -> bool) l :
  existsb (fun x => f x || g x) l = existsb f l || existsb g l.
Proof.
  induction l as [|x l IH]; [reflexivity|]. cbn [existsb]. rewrite IH.
  destruct (f x), (g x), (existsb f l), (existsb g l); reflexivity.
Qed.

Lemma existsb_pointwise {A} (f g : A -> bool) l :
  (forall x, f x = g x) -> existsb f l = existsb g l.
Proof.
  intros Hfg. induction l as [|x l IH]; [reflexivity|].
  cbn [existsb]. rewrite Hfg, IH. reflexivity.
Qed.

Lemma tails_length s suf : In suf (tails s) -> (length suf <= length s)%nat.
Proof.
  revert suf. induction s as [|c s IH]; intros suf Hin.
  - destruct Hin as [<-|[]]. reflexivity.
  - destruct Hin as [<-|Hin]; [reflexivity|].
    cbn [length]. specialize (IH _ Hin). lia.
Qed.

Lemma existsb_tails_begin (g : list ascii -> bool) s :
  existsb (fun suf => (length suf =? length s)%nat && g suf) (tails s) = g s.
Proof.
  destruct s as [|c s].
  - cbn. rewrite orb_false_r. reflexivity.
  - cbn [tails existsb]. rewrite Nat.eqb_refl. cbn [andb].
    assert (existsb (fun suf => (length suf =? length (c :: s))%nat && g suf) (tails s)
            = false) as ->.
    { apply not_true_is_false. intros H. apply existsb_exists in H.
      destruct H as (suf & Hin & H). apply andb_true_iff in H as [H _].
      apply Nat.eqb_eq in H. apply tails_length in Hin. cbn [length] in H. lia. }
    apply orb_false_r.
Qed.

Lemma In_tails_app (pre s : list ascii) : In s (tails (pre ++ s)).
Proof.
  induction pre as [|c pre IH].
  - destruct s; left; reflexivity.
  - right. exact IH.
Qed.

End PatternFacts.

(** The pattern of [ScanEntry] matches the types that the words above
    describe. *)
Lemma MatchString_fsTypePattern t :
  regexp.MatchString fsTypePattern t = relevantFSType t.
Proof.
  unfold regexp.MatchString, relevantFSType, startsWithFold, containsFold, endsWithFold.
  rewrite (existsb_pointwise _ _ _ (nonEmpty_fsTypePattern (length (bytes t)))).
  rewrite !existsb_orb, existsb_tails_begin. reflexivity.
Qed.

Lemma matchRune_toLower x s : regexp.matchRune true (toLower x) (x :: s) = Some s.
Proof.
  destruct x as [[] [] [] [] [] [] [] []]; vm_compute; reflexivity.
Qed.

Lemma matchLit_toLower mid post :
  regexp.matchLit true (map toLower mid) (mid ++ post) = Some post.
Proof.
  induction mid as [|x mid IH]; [reflexivity|].
  cbn [map app regexp.matchLit]. rewrite matchRune_toLower. exact IH.
Qed.

Lemma containsNoCase_containsFold w t :
  containsNoCase w t -> containsFold w t = true.
Proof.
  intros (pre & mid & post & Ht & Hw). unfold containsFold.
  apply existsb_exists. exists (mid ++ post). split.
  - rewrite Ht. apply In_tails_app.
  - rewrite <- Hw, matchLit_toLower. reflexivity.
Qed.


Lemma stripPrefix_app a s s' : stripPrefix a s = Some s' -> s = a ++ s'.
Proof.
  revert s. induction a as [|x a IH]; intros s H.
  - injection H as ->. reflexivity.
  - destruct s as [|y s]; [discriminate|]. cbn [stripPrefix] in H.
    destruct (Ascii.eqb_spec x y) as [->|]; [|discriminate].
    cbn [app]. f_equal. apply IH, H.
Qed.

Lemma firstStrip_In alts s s' :
  regexp.firstStrip alts s = Some s' -> exists a, In a alts /\ s = a ++ s'.
Proof.
  induction alts as [|a alts IH]; [discriminate|]. cbn [regexp.firstStrip].
  destruct (stripPrefix a s) as [rest|] eqn:Hstrip.
  - intros H. injection H as ->. exists a. split; [left; reflexivity|].
    apply stripPrefix_app, Hstrip.
  - intros H. destruct (IH H) as (b & Hb & ->). exists b. split; [right; exact Hb|].
    reflexivity.
Qed.

(** What (?i) lets stand for a letter that is not a capital is what
    [spells] lets stand for it. *)
Lemma foldOrbit_spells c a w mid :
  isUpper c = false -> In a ([c] :: regexp.foldOrbit c) ->
  spells w mid -> spells (c :: w) (a ++ mid).
Proof.
  intros Hup Hin Hw.
  destruct c as [[] [] [] [] [] [] [] []]; try discriminate Hup;
    vm_compute in Hin;
    repeat (destruct Hin as [<-|Hin]); try contradiction;
    first [ apply spells_letter; [reflexivity|exact Hw]
          | exact (spells_longS _ _ Hw)
          | exact (spells_kelvin _ _ Hw) ].
Qed.

Lemma matchLit_spells w s rest :
  forallb (fun c => negb (isUpper c)) w = true ->
  regexp.matchLit true w s = Some rest ->
  exists mid, s = mid ++ rest /\ spells w mid.
Proof.
  revert s. induction w as [|c w IH]; intros s Hw H.
  - injection H as ->. exists []. split; [reflexivity|constructor].
  - cbn [forallb] in Hw. apply andb_true_iff in Hw as [Hc Hw].
    apply negb_true_iff in Hc. cbn [regexp.matchLit] in H.
    destruct (regexp.matchRune true c s) as [s1|] eqn:Hrune; [|discriminate].
    destruct (IH s1 Hw H) as (mid & -> & Hmid).
    destruct (firstStrip_In _ _ _ Hrune) as (a & Ha & ->).
    exists (a ++ mid). split; [apply app_assoc|].
    apply foldOrbit_spells; assumption.
Qed.

Lemma spells_matchLit w mid rest :
  spells w mid -> regexp.matchLit true w (mid ++ rest) = Some rest.
Proof.
  induction 1 as [|c x w mid Hx _ IH|w mid _ IH|w mid _ IH].
  - reflexivity.
  - subst c. cbn [regexp.matchLit app]. rewrite matchRune_toLower. exact IH.
  - exact IH.
  - exact IH.
Qed.

Lemma In_tails_split (s suf : list ascii) :
  In suf (tails s) -> exists pre, s = pre ++ suf.
Proof.
  induction s as [|c s IH]; cbn [tails In].
  - intros [<-|[]]. exists []. reflexivity.
  - intros [<-|Hin]; [exists []; reflexivity|].
    destruct (IH Hin) as [pre ->]. exists (c :: pre). reflexivity.
Qed.

Section IgnoringCase.
Variable w : string.
Hypothesis small : forallb (fun c => negb (isUpper c)) (bytes w) = true.

Lemma startsWithFold_words t :
  startsWithFold w t = true <-> beginsIgnoringCase w t.
Proof.
  unfold startsWithFold, beginsIgnoringCase. split.
  - destruct (regexp.matchLit true (bytes w) (bytes t)) as [post|] eqn:H;
      [|discriminate].
    intros _. destruct (matchLit_spells _ _ _ small H) as (mid & Ht & Hmid).
    eauto.
  - intros (mid & post & -> & Hmid). rewrite (spells_matchLit _ _ post Hmid).
    reflexivity.
Qed.

Lemma containsFold_words t :
  containsFold w t = true <-> containsIgnoringCase w t.
Proof.
  unfold containsFold, containsIgnoringCase. rewrite existsb_exists. split.
  - intros (suf & Hin & Hsuf). destruct (In_tails_split _ _ Hin) as [pre Ht].
    destruct (regexp.matchLit true (bytes w) suf) as [post|] eqn:H; [|discriminate].
    destruct (matchLit_spells _ _ _ small H) as (mid & -> & Hmid).
    eauto.
  - intros (pre & mid & post & Ht & Hmid). exists (mid ++ post). split.
    + rewrite Ht. apply In_tails_app.
    + rewrite (spells_matchLit _ _ post Hmid). reflexivity.
Qed.

Lemma endsWithFold_words t :
  endsWithFold w t = true <-> endsIgnoringCase w t.
Proof.
  unfold endsWithFold, endsIgnoringCase. rewrite existsb_exists. split.
  - intros (suf & Hin & Hsuf). destruct (In_tails_split _ _ Hin) as [pre Ht].
    destruct (regexp.matchLit true (bytes w) suf) as [[|c post]|] eqn:H;
      try discriminate.
    destruct (matchLit_spells _ _ _ small H) as (mid & -> & Hmid).
    rewrite app_nil_r in Ht. eauto.
  - intros (pre & mid & Ht & Hmid). exists mid. split.
    + rewrite Ht. apply In_tails_app.
    + pose proof (spells_matchLit _ _ [] Hmid) as H. rewrite app_nil_r in H.
      rewrite H. reflexivity.
Qed.

End IgnoringCase.

(** The pattern of [ScanEntry] matches the types that the specification
    lists, and no other. *)
Lemma MatchString_words t :
  regexp.MatchString fsTypePattern t = true <-> relevantTypeIgnoringCase t.
Proof.
  rewrite MatchString_fsTypePattern. unfold relevantFSType, relevantTypeIgnoringCase.
  rewrite !orb_true_iff.
  rewrite (startsWithFold_words "devtmpfs" eq_refl),
    (containsFold_words "fuse." eq_refl), (containsFold_words "nfs" eq_refl),
    (endsWithFold_words "overlay" eq_refl).
  tauto.
Qed.

Lemma HasPrefix_slash s :
  HasPrefix s "/" = true <-> exists rest, s = String "/"%char rest.
Proof.
  unfold HasPrefix, bytes.
  destruct s as [|c s]; cbn [list_ascii_of_string stripPrefix].
  - split; [discriminate|]. intros [rest H]. discriminate.
  - destruct (Ascii.eqb_spec "/"%char c) as [<-|Hne].
    + split; eauto.
    + split; [discriminate|]. intros [rest H]. congruence.
Qed.

(** ** One step of the scan *)

Lemma ScanEntry_valid entry cache :
  snd (fst (fst (ScanEntry entry cache))) = relevant entry.
Proof.
  unfold ScanEntry, relevant.
  destruct (regexp.MatchString fsTypePattern (FSType entry)
            || HasPrefix (MountSource entry) "/"); cbn [negb];
    [destruct (cache !! MountSource entry)|]; reflexivity.
Qed.

Lemma ScanEntry_irrelevant entry cache :
  relevant entry = false ->
  ScanEntry entry cache = (zeroInfo, false, None, cache).
Proof. unfold ScanEntry, relevant. intros ->. reflexivity. Qed.

Lemma ScanEntry_hit entry cache cachedEntry :
  relevant entry = true ->
  cache !! MountSource entry = Some cachedEntry ->
  ScanEntry entry cache
  = (setSource (infoOf entry) (path.Join [MountPoint cachedEntry; Root entry]),
     true, None, cache).
Proof. unfold ScanEntry, relevant. intros -> ->. reflexivity. Qed.

Lemma ScanEntry_miss entry cache :
  relevant entry = true ->
  cache !! MountSource entry = None ->
  ScanEntry entry cache
  = (infoOf entry, true, None, <[MountSource entry := entry]> cache).
Proof. unfold ScanEntry, relevant. intros -> ->. reflexivity. Qed.

Lemma ScanEntry_never_fails entry cache :
  snd (fst (ScanEntry entry cache)) = None.
Proof.
  destruct (relevant entry) eqn:Hr.
  - destruct (cache !! MountSource entry) eqn:Hc.
    + erewrite ScanEntry_hit by eassumption. reflexivity.
    + rewrite ScanEntry_miss by assumption. reflexivity.
  - rewrite ScanEntry_irrelevant by assumption. reflexivity.
Qed.

(** A key that the cache holds keeps its entry. *)
Lemma ScanEntry_keeps entry cache src first :
  cache !! src = Some first ->
  snd (ScanEntry entry cache) !! src = Some first.
Proof.
  intros Hsrc. destruct (relevant entry) eqn:Hr.
  - destruct (cache !! MountSource entry) eqn:Hc.
    + erewrite ScanEntry_hit by eassumption. exact Hsrc.
    + rewrite ScanEntry_miss by assumption. cbn [snd].
      rewrite lookup_insert_ne; [exact Hsrc|]. congruence.
  - rewrite ScanEntry_irrelevant by assumption. exact Hsrc.
Qed.

(** An entry that is not relevant, or has another source, leaves the key
    as it is. *)
Lemma ScanEntry_other entry cache src :
  (relevant entry = true -> MountSource entry <> src) ->
  snd (ScanEntry entry cache) !! src = cache !! src.
Proof.
  intros Hne. destruct (relevant entry) eqn:Hr.
  - destruct (cache !! MountSource entry) eqn:Hc.
    + erewrite ScanEntry_hit by eassumption. reflexivity.
    + rewrite ScanEntry_miss by assumption. cbn [snd].
      apply lookup_insert_ne. auto.
  - rewrite ScanEntry_irrelevant by assumption. reflexivity.
Qed.

(** ** The whole scan *)

Lemma scanEntries_cons entry rest cache :
  scanEntries (entry :: rest) cache
  = ((if relevant entry then [fst (fst (fst (ScanEntry entry cache)))] else [])
       ++ fst (fst (scanEntries rest (snd (ScanEntry entry cache)))),
     None,
     snd (scanEntries rest (snd (ScanEntry entry cache)))) /\
  snd (fst (scanEntries rest (snd (ScanEntry entry cache)))) = None.
Proof.
  revert entry cache. induction rest as [|e2 rest IH]; intros entry cache.
  - cbn [scanEntries].
    pose proof (ScanEntry_never_fails entry cache) as Hnf.
    pose proof (ScanEntry_valid entry cache) as Hv.
    destruct (ScanEntry entry cache) as [[[info valid] failed] cache'].
    cbn in Hnf, Hv. subst. split; reflexivity.
  - destruct (IH e2 (snd (ScanEntry entry cache))) as [IH1 IH2].
    pose proof (ScanEntry_never_fails entry cache) as Hnf.
    pose proof (ScanEntry_valid entry cache) as Hv.
    change (scanEntries (entry :: e2 :: rest) cache) with
      (match ScanEntry entry cache with
       | (_, _, Some err, cache') => ([], Some err, cache')
       | (info, valid, None, cache') =>
           match scanEntries (e2 :: rest) cache' with
           | (infos, None, cache'') =>
               ((if valid then [info] else []) ++ infos, None, cache'')
           | failure => ([], snd (fst failure), snd failure)
           end
       end).
    destruct (ScanEntry entry cache) as [[[info valid] failed] cache'].
    cbn [fst snd] in *. subst failed valid.
    rewrite IH1. split; reflexivity.
Qed.

Lemma scanEntries_never_fails entries cache :
  snd (fst (scanEntries entries cache)) = None.
Proof.
  destruct entries as [|e rest]; [reflexivity|].
  rewrite (proj1 (scanEntries_cons e rest cache)). reflexivity.
Qed.

Lemma scanEntries_app a b cache :
  scanEntries (a ++ b) cache
  = (fst (fst (scanEntries a cache))
       ++ fst (fst (scanEntries b (snd (scanEntries a cache)))),
     None,
     snd (scanEntries b (snd (scanEntries a cache)))).
Proof.
  revert cache. induction a as [|e a IH]; intros cache.
  - cbn [app scanEntries fst snd].
    pose proof (scanEntries_never_fails b cache) as H.
    destruct (scanEntries b cache) as [[infos failed] cache']. cbn in *.
    subst. reflexivity.
  - cbn [app]. rewrite !(proj1 (scanEntries_cons _ _ _)). cbn [fst snd].
    rewrite IH. cbn [fst snd]. rewrite app_assoc. reflexivity.
Qed.

Lemma scanEntries_keeps entries cache src first :
  cache !! src = Some first ->
  snd (scanEntries entries cache) !! src = Some first.
Proof.
  revert cache. induction entries as [|e rest IH]; intros cache Hsrc.
  - exact Hsrc.
  - rewrite (proj1 (scanEntries_cons e rest cache)). cbn [snd].
    apply IH, ScanEntry_keeps, Hsrc.
Qed.

Lemma scanEntries_other entries cache src :
  (forall e, In e entries -> relevant e = true -> MountSource e <> src) ->
  snd (scanEntries entries cache) !! src = cache !! src.
Proof.
  revert cache. induction entries as [|e rest IH]; intros cache Hne.
  - reflexivity.
  - rewrite (proj1 (scanEntries_cons e rest cache)). cbn [snd].
    rewrite IH by (intros; apply Hne; [right|]; assumption).
    apply ScanEntry_other. apply Hne. left. reflexivity.
Qed.

Lemma relevant_absolute_source entry rest :
  MountSource entry = String "/"%char rest -> relevant entry = true.
Proof.
  intros H. unfold relevant. apply orb_true_iff. right.
  apply HasPrefix_slash. eauto.
Qed.

Lemma getVolumeMountPaths_loop (minfo : list Info) (mntPath : string) (acc : list string) :
  fold_left (fun mountPaths mi =>
               if String.eqb (Source mi) mntPath
               then mountPaths ++ [Path mi] else mountPaths) minfo acc
  = acc ++ map Path (List.filter (fun mi => String.eqb (Source mi) mntPath) minfo).
Proof.
  revert acc. induction minfo as [|mi minfo IH]; intros acc; cbn [fold_left List.filter].
  - rewrite app_nil_r. reflexivity.
  - rewrite IH. destruct (String.eqb (Source mi) mntPath); [|reflexivity].
    cbn [map]. rewrite <- app_assoc. reflexivity.
Qed.

(** ** The claims on the mount-table resolver *)

(** C1.  In a scan of a mount table, let [first] be the first relevant
    entry with its source and [entry] a later relevant entry with the same
    source.  The step at [first] is a cache miss: its record keeps the raw
    source and [first] itself is put in the cache.  The step at [entry] is
    a cache hit: the source of its record is
    [Join (MountPoint first) (Root entry)] and the cache is left as it
    was.  So the records of the whole scan hold, in table order, the record
    of [first] with its raw source and the record of [entry] resolved to
    the mount point of [first], and at the end of the scan the cache still
    holds [first] for that source.  A hit on any cache behaves the same. *)
Theorem scan_resolves_to_first_seen (pre mid post : list Entry) (first entry : Entry) :
  relevant first = true ->
  (forall e, In e pre -> relevant e = true -> MountSource e <> MountSource first) ->
  relevant entry = true ->
  MountSource entry = MountSource first ->
  let cache0 := snd (scanEntries pre ∅) in
  let cache1 := <[MountSource first := first]> cache0 in
  let cache2 := snd (scanEntries mid cache1) in
  let resolved :=
    setSource (infoOf entry) (path.Join [MountPoint first; Root entry]) in
  ScanEntry first cache0 = (infoOf first, true, None, cache1)
  /\ Source (infoOf first) = MountSource first
  /\ cache2 !! MountSource entry = Some first
  /\ ScanEntry entry cache2 = (resolved, true, None, cache2)
  /\ Source resolved = path.Join [MountPoint first; Root entry]
  /\ scanEntries (pre ++ first :: mid ++ entry :: post) ∅
     = (fst (fst (scanEntries pre ∅))
          ++ infoOf first
          :: fst (fst (scanEntries mid cache1))
          ++ resolved
          :: fst (fst (scanEntries post cache2)),
        None,
        snd (scanEntries post cache2))
  /\ snd (scanEntries post cache2) !! MountSource first = Some first
  /\ (forall (cache : gmap string Entry) (cachedEntry : Entry),
        cache !! MountSource entry = Some cachedEntry ->
        ScanEntry entry cache
        = (setSource (infoOf entry)
             (path.Join [MountPoint cachedEntry; Root entry]),
           true, None, cache)).
Proof.
  intros Hfirst Hpre Hentry Hsame cache0 cache1 cache2 resolved.
  assert (cache0 !! MountSource first = None) as Hmiss.
  { unfold cache0. rewrite scanEntries_other by exact Hpre. apply lookup_empty. }
  assert (ScanEntry first cache0 = (infoOf first, true, None, cache1)) as Hstep1.
  { apply ScanEntry_miss; assumption. }
  assert (cache2 !! MountSource entry = Some first) as Hhit.
  { unfold cache2. rewrite Hsame. apply scanEntries_keeps.
    unfold cache1. apply lookup_insert_eq. }
  assert (ScanEntry entry cache2 = (resolved, true, None, cache2)) as Hstep2.
  { apply ScanEntry_hit; assumption. }
  repeat split; try assumption; try reflexivity.
  - rewrite scanEntries_app. fold cache0.
    rewrite (proj1 (scanEntries_cons first _ cache0)), Hfirst, Hstep1.
    cbn [fst snd]. rewrite scanEntries_app. fold cache2.
    rewrite (proj1 (scanEntries_cons entry _ cache2)), Hentry, Hstep2.
    cbn [fst snd]. reflexivity.
  - apply scanEntries_keeps. rewrite <- Hsame. exact Hhit.
  - intros cache cachedEntry Hc. apply ScanEntry_hit; assumption.
Qed.

Lemma scan_resolves_to_first_seen_witness :
  scanEntries ([] ++ vol1Mount :: [] ++ vol1Published :: []) ∅
  = ([] ++ infoOf vol1Mount
        :: [] ++ mkInfo "/dev/sda1" "/published/x" "/mnt/vol1/subdir" "ext4" ["rw"]
        :: [],
     None,
     <[MountSource vol1Mount := vol1Mount]> ∅).
Proof.
  refine (proj1 (proj2 (proj2 (proj2 (proj2 (proj2
    (scan_resolves_to_first_seen [] [] [] vol1Mount vol1Published _ _ _ _))))))).
  - reflexivity.
  - intros e [].
  - reflexivity.
  - reflexivity.
Defined.

(** C2, as the code has it.  The two entries with source /dev/sda1 at /a
    and /b, both with root /, give two records: the first keeps the raw
    source /dev/sda1, the second has the resolved source /a. *)
Theorem single_anchor_sources (t1 t2 : string) (o1 o2 : list string) :
  getMounts (inl [anchorA t1 o1; anchorB t2 o2])
  = ([mkInfo "/dev/sda1" "/a" "/dev/sda1" t1 o1;
      mkInfo "/dev/sda1" "/b" "/a" t2 o2], None).
Proof.
  unfold getMounts.
  assert (relevant (anchorA t1 o1) = true) as Ha
    by (eapply relevant_absolute_source; reflexivity).
  assert (relevant (anchorB t2 o2) = true) as Hb
    by (eapply relevant_absolute_source; reflexivity).
  rewrite (proj1 (scanEntries_cons _ _ _)), Ha.
  rewrite (ScanEntry_miss _ _ Ha) by apply lookup_empty. cbn [fst snd].
  rewrite (proj1 (scanEntries_cons _ _ _)), Hb.
  rewrite (ScanEntry_hit _ _ (anchorA t1 o1) Hb) by apply lookup_insert_eq.
  reflexivity.
Qed.

(** C2, as the claim has it, fails: the records of the two entries do not
    both have the source /a, the first one has /dev/sda1. *)
Lemma single_anchor_first_keeps_raw_source :
  ~ (forall info,
       In info (fst (getMounts (inl [anchorA "ext4" ["rw"]; anchorB "ext4" ["rw"]]))) ->
       Source info = "/a").
Proof.
  intros H.
  specialize (H (mkInfo "/dev/sda1" "/a" "/dev/sda1" "ext4" ["rw"])).
  assert (In (mkInfo "/dev/sda1" "/a" "/dev/sda1" "ext4" ["rw"])
            (fst (getMounts (inl [anchorA "ext4" ["rw"]; anchorB "ext4" ["rw"]]))))
    as Hin by (vm_compute; left; reflexivity).
  discriminate (H Hin).
Qed.

(** C6.  [ScanEntry] reports an entry valid exactly when its filesystem
    type is one of the relevant ones, letters in either case: a type that
    begins with devtmpfs, contains "fuse." or nfs, or ends with overlay;
    or when its source begins with a slash.  A one-entry scan gives a
    record exactly then.  So tmpfs mounted from tmpfs is dropped, nfs4 is
    kept whatever the source, and ext4 from /real/path is kept; NFS4,
    DevTmpFS, "FUSE.sshfs" and OVERLAY are kept as nfs4 is, and ext4 from
    a source that is not absolute is dropped. *)
Theorem ScanEntry_keeps_relevant (entry : Entry) (cache : gmap string Entry) :
  let valid := snd (fst (fst (ScanEntry entry cache))) in
  (valid = true <->
   relevantTypeIgnoringCase (FSType entry)
   \/ exists rest, MountSource entry = String "/"%char rest)
  /\ length (fst (fst (scanEntries [entry] cache))) = (if valid then 1 else 0)%nat
  /\ (FSType entry = "tmpfs" -> MountSource entry = "tmpfs" -> valid = false)
  /\ (FSType entry = "nfs4" -> valid = true)
  /\ (FSType entry = "ext4" -> MountSource entry = "/real/path" -> valid = true)
  /\ (FSType entry = "NFS4" -> valid = true)
  /\ (FSType entry = "DevTmpFS" -> valid = true)
  /\ (FSType entry = "FUSE.sshfs" -> valid = true)
  /\ (FSType entry = "OVERLAY" -> valid = true)
  /\ (FSType entry = "ext4" -> MountSource entry = "real/path" -> valid = false).
Proof.
  intros valid. unfold valid. rewrite ScanEntry_valid.
  split; [|split].
  - unfold relevant. rewrite orb_true_iff, MatchString_words, HasPrefix_slash.
    reflexivity.
  - rewrite (proj1 (scanEntries_cons _ _ _)). cbn [scanEntries fst snd].
    rewrite app_nil_r. destruct (relevant entry); reflexivity.
  - unfold relevant. repeat split.
    + intros -> ->. reflexivity.
    + intros ->. reflexivity.
    + intros -> ->. reflexivity.
    + intros ->. reflexivity.
    + intros ->. reflexivity.
    + intros ->. reflexivity.
    + intros ->. reflexivity.
    + intros -> ->. reflexivity.
Qed.

Lemma ScanEntry_keeps_relevant_witness :
  snd (fst (fst (ScanEntry (mkEntry "/" "/mnt/tmp" ["rw"] "tmpfs" "tmpfs") ∅))) = false
  /\ snd (fst (fst (ScanEntry (mkEntry "/" "/mnt/nfs" ["rw"] "nfs4" "server:/export") ∅))) = true
  /\ snd (fst (fst (ScanEntry (mkEntry "/" "/mnt/bind" ["rw"] "ext4" "/real/path") ∅))) = true
  /\ snd (fst (fst (ScanEntry (mkEntry "/" "/mnt/nfs" ["rw"] "myNFSv4" "server:/export") ∅))) = true
  /\ ~ relevantTypeIgnoringCase "tmpfs".
Proof.
  split; [|split; [|split; [|split]]].
  - destruct (ScanEntry_keeps_relevant
                (mkEntry "/" "/mnt/tmp" ["rw"] "tmpfs" "tmpfs") ∅)
      as (_ & _ & H & _).
    apply H; reflexivity.
  - destruct (ScanEntry_keeps_relevant
                (mkEntry "/" "/mnt/nfs" ["rw"] "nfs4" "server:/export") ∅)
      as (_ & _ & _ & H & _).
    apply H; reflexivity.
  - destruct (ScanEntry_keeps_relevant
                (mkEntry "/" "/mnt/bind" ["rw"] "ext4" "/real/path") ∅)
      as (_ & _ & _ & _ & H & _).
    apply H; reflexivity.
  - destruct (ScanEntry_keeps_relevant
                (mkEntry "/" "/mnt/nfs" ["rw"] "myNFSv4" "server:/export") ∅)
      as (H & _).
    apply H. left. right. right. left.
    exists (bytes "my"), (bytes "NFS"), (bytes "v4"). split; [reflexivity|].
    repeat (apply spells_letter; [reflexivity|]). apply spells_end.
  - destruct (ScanEntry_keeps_relevant
                (mkEntry "/" "/mnt/tmp" ["rw"] "tmpfs" "tmpfs") ∅)
      as (H & _).
    intros Hrel. assert (false = true) as Hfalse; [|discriminate Hfalse].
    apply H. left. exact Hrel.
Defined.

Lemma filter_none {A} (f : A -> bool) (l : list A) :
  (forall x, In x l -> f x = false) -> List.filter f l = [].
Proof.
  induction l as [|x l IH]; intros Hf; [reflexivity|].
  cbn [List.filter]. rewrite (Hf x (or_introl eq_refl)).
  apply IH. intros y Hin. apply Hf. right. exact Hin.
Qed.

(** C7.  For a mount table that can be read, the query returns, with no
    error, the paths of the resolved records whose source is
    [Join mntDir volumeID], one for each such record and in table order;
    a path is in the answer exactly when a record with that source has
    it, and when no record has that source the answer is the empty
    list. *)
Theorem getVolumeMountPaths_collects (entries : list Entry) (mntDir volumeID : string) :
  let records := fst (getMounts (inl entries)) in
  let mntPath := path.Join [mntDir; volumeID] in
  let answer := getVolumeMountPaths (inl entries) mntDir volumeID in
  answer
  = (map Path (List.filter (fun mi => String.eqb (Source mi) mntPath) records), None)
  /\ (forall p,
        In p (fst answer) <->
        exists mi, In mi records /\ Source mi = mntPath /\ Path mi = p)
  /\ ((forall mi, In mi records -> Source mi <> mntPath) -> answer = ([], None)).
Proof.
  intros records mntPath answer.
  assert (answer
          = (map Path (List.filter (fun mi => String.eqb (Source mi) mntPath) records),
             None)) as Hanswer.
  { unfold answer, getVolumeMountPaths. fold mntPath.
    pose proof (scanEntries_never_fails entries ∅) as Hnf.
    unfold records, getMounts.
    destruct (scanEntries entries ∅) as [[minfo failed] cache].
    cbn [fst snd] in *. subst failed.
    rewrite getVolumeMountPaths_loop. reflexivity. }
  split; [exact Hanswer|]. split.
  - intros p. rewrite Hanswer. cbn [fst]. rewrite in_map_iff. split.
    + intros (mi & Hp & Hin). apply filter_In in Hin as [Hin Heq].
      apply String.eqb_eq in Heq. eauto.
    + intros (mi & Hin & Hsrc & Hp). exists mi. split; [exact Hp|].
      apply filter_In. split; [exact Hin|]. apply String.eqb_eq, Hsrc.
  - intros Hnone. rewrite Hanswer. f_equal.
    rewrite filter_none; [reflexivity|].
    intros mi Hin. apply String.eqb_neq, Hnone, Hin.
Qed.

Lemma getVolumeMountPaths_collects_witness :
  getVolumeMountPaths (inl [vol1Mount; vol1Published]) "/mnt" "other" = ([], None).
Proof.
  apply (getVolumeMountPaths_collects [vol1Mount; vol1Published] "/mnt" "other").
  intros mi Hin. vm_compute in Hin.
  destruct Hin as [<-|[<-|[]]]; intros H; vm_compute in H; discriminate H.
Defined.

(** C8.  When the retrieval of the mount table fails, the query returns
    that very error and the nil list; the scan itself never fails, so the
    error is the one of the mount-table source. *)
Theorem getVolumeMountPaths_propagates (table : MountTable) (mntDir volumeID : string)
  (err : error) :
  snd (getMounts table) = Some err ->
  getVolumeMountPaths table mntDir volumeID = ([], Some err) /\ table = inr err.
Proof.
  destruct table as [entries|err']; intros Hfail.
  - unfold getMounts in Hfail. rewrite scanEntries_never_fails in Hfail.
    discriminate.
  - cbn in Hfail. injection Hfail as ->. split; reflexivity.
Qed.

Lemma getVolumeMountPaths_propagates_witness :
  getVolumeMountPaths (inr (PathError "open" "/proc/self/mountinfo" EACCES)) "/mnt" "vol1"
  = ([], Some (PathError "open" "/proc/self/mountinfo" EACCES)).
Proof.
  apply (getVolumeMountPaths_propagates
           (inr (PathError "open" "/proc/self/mountinfo" EACCES)) "/mnt" "vol1").
  reflexivity.
Defined.

(** C9.  An entry whose filesystem type contains nfs, in letters of either
    case, anywhere is reported valid whatever its source, the type xnfsx
    for one.  The pattern matches a type exactly when it begins with
    devtmpfs, contains "fuse." or nfs, or ends with overlay: the first
    alternative alone is tied to the start and the last alone to the end,
    so xdevtmpfs and overlayx do not match while devtmpfsx, xoverlay and
    "xfuse.x" do. *)
Theorem nfs_substring_is_relevant (entry : Entry) (cache : gmap string Entry) :
  let valid := snd (fst (fst (ScanEntry entry cache))) in
  (containsNoCase "nfs" (FSType entry) -> valid = true)
  /\ (FSType entry = "xnfsx" -> valid = true)
  /\ regexp.MatchString fsTypePattern (FSType entry)
     = startsWithFold "devtmpfs" (FSType entry)
       || containsFold "fuse." (FSType entry)
       || containsFold "nfs" (FSType entry)
       || endsWithFold "overlay" (FSType entry)
  /\ regexp.MatchString fsTypePattern "xdevtmpfs" = false
  /\ regexp.MatchString fsTypePattern "devtmpfsx" = true
  /\ regexp.MatchString fsTypePattern "overlayx" = false
  /\ regexp.MatchString fsTypePattern "xoverlay" = true
  /\ regexp.MatchString fsTypePattern "xfuse.x" = true.
Proof.
  intros valid. unfold valid. rewrite ScanEntry_valid. unfold relevant.
  split; [|split; [|split; [|repeat split]]].
  - intros Hnfs. rewrite MatchString_fsTypePattern. unfold relevantFSType.
    rewrite (containsNoCase_containsFold _ _ Hnfs).
    rewrite orb_true_r. reflexivity.
  - intros ->. reflexivity.
  - apply MatchString_fsTypePattern.
Qed.

Lemma nfs_substring_is_relevant_witness :
  snd (fst (fst (ScanEntry (mkEntry "/" "/mnt/x" ["rw"] "myNFSv9" "none") ∅))) = true
  /\ snd (fst (fst (ScanEntry (mkEntry "/" "/mnt/x" ["rw"] "xnfsx" "none") ∅))) = true.
Proof.
  split.
  - destruct (nfs_substring_is_relevant
                (mkEntry "/" "/mnt/x" ["rw"] "myNFSv9" "none") ∅) as (H & _).
    apply H. exists (bytes "my"), (bytes "NFS"), (bytes "v9").
    split; reflexivity.
  - destruct (nfs_substring_is_relevant
                (mkEntry "/" "/mnt/x" ["rw"] "xnfsx" "none") ∅) as (_ & H & _).
    apply H. reflexivity.
Defined.

(** ** Strings that are UTF-8 are written as they are *)

Lemma toValid_valid fuel l : utf8.valid fuel l = true -> utf8.toValid fuel l = l.
Proof.
  revert l. induction fuel as [|fuel IH]; intros l H.
  - destruct l; [reflexivity|discriminate].
  - destruct l as [|c rest]; [reflexivity|].
    cbn [utf8.valid utf8.toValid] in *.
    destruct (utf8.runeLen (c :: rest)) as [n|]; [|discriminate].
    rewrite (IH _ H). apply firstn_skipn.
Qed.

Lemma ToValid_valid s : utf8.ValidString s = true -> utf8.ToValid s = s.
Proof.
  unfold utf8.ValidString, utf8.ToValid, str, bytes. intros H.
  rewrite (toValid_valid _ _ H). apply string_of_list_ascii_of_string.
Qed.

(** ** The codec reads what it wrote *)

Section CanonicalFacts.
Import canonical.

Lemma parseDecimal_decimal z : parseDecimal (decimal z) = Some z.
Proof.
  unfold parseDecimal, decimal. rewrite NilEmpty.isi. cbn.
  rewrite DecimalZ.of_to. reflexivity.
Qed.

Lemma decInt64_enc z : json.inInt64 z = true -> decInt64 (encInt64 z) = Some z.
Proof.
  intros Hz. unfold decInt64, encInt64.
  rewrite parseDecimal_decimal, String.eqb_refl, Hz. reflexivity.
Qed.

Lemma decStrings_enc l : decStrings (encStrings l) = Some (utf8.ToValid <$> l).
Proof.
  unfold decStrings, encStrings, encString.
  rewrite (list_fmap_compose utf8.ToValid JString).
  apply mapM_fmap_Some. reflexivity.
Qed.

Lemma decMap_enc m : decMap (encMap m) = Some (readBackMap m).
Proof.
  unfold decMap, encMap, readBackMap.
  rewrite (mapM_fmap_Some _ (fun kv : string * string => (fst kv, JString (snd kv)))).
  - reflexivity.
  - intros [k v]. reflexivity.
Qed.

Lemma readBackMap_empty : readBackMap ∅ = ∅.
Proof.
  unfold readBackMap, mapMembers, mapOfMembers. rewrite map_to_list_empty.
  reflexivity.
Qed.

(** A map of well-formed strings is read back as it was. *)
Lemma readBackMap_valid m : validMap m -> readBackMap m = m.
Proof.
  intros Hvalid. unfold readBackMap, mapMembers, mapOfMembers.
  assert (Forall (fun kv => (utf8.ToValid (fst kv), utf8.ToValid (snd kv)) = kv)
            (merge_sort keyLe (map_to_list m))) as Hsame.
  { rewrite merge_sort_Permutation. apply Forall_forall. intros [k v] Hin.
    apply elem_of_map_to_list in Hin. destruct (Hvalid k v Hin) as [Hk Hv].
    cbn [fst snd]. rewrite (ToValid_valid _ Hk), (ToValid_valid _ Hv). reflexivity. }
  rewrite (Forall_fmap_ext_1 _ id _ Hsame), list_fmap_id.
  rewrite <- (list_to_map_to_list m) at 2.
  apply list_to_map_proper.
  - rewrite reverse_Permutation, merge_sort_Permutation.
    apply NoDup_fst_map_to_list.
  - rewrite reverse_Permutation. apply merge_sort_Permutation.
Qed.

Lemma isEmptyMap_true m : isEmptyMap m = true -> m = ∅.
Proof.
  unfold isEmptyMap. intros H. apply map_to_list_empty_iff.
  destruct (map_to_list m); [reflexivity|discriminate].
Qed.

Lemma isEmpty_true {A} (l : list A) : isEmpty l = true -> l = [].
Proof. destruct l; [reflexivity|discriminate]. Qed.

Lemma decCapacityRange_enc c :
  json.inInt64 (csi.RequiredBytes c) && json.inInt64 (csi.LimitBytes c) = true ->
  decCapacityRange (encCapacityRange c) = Some c.
Proof.
  destruct c as [r l]. unfold encCapacityRange, decCapacityRange, member.
  cbn [csi.RequiredBytes csi.LimitBytes]. intros [Hr Hl]%andb_true_iff.
  pose proof (decInt64_enc r Hr) as Er. pose proof (decInt64_enc l Hl) as El.
  unfold encInt64 in *.
  destruct (Z.eqb_spec r 0) as [->|_], (Z.eqb_spec l 0) as [->|_];
    cbn [app];
    cbn [knownOnly forallb existsb fst String.eqb Ascii.eqb Bool.eqb andb orb
         field assoc consumeField];
    rewrite ?Er, ?El; reflexivity.
Qed.

Lemma decAccessMode_enc m : decAccessMode (encAccessMode m) = Some m.
Proof. destruct m; reflexivity. Qed.

Lemma decMount_enc t f :
  decMount (encMount t f) = Some (readBackAccessType (csi.Mount t f)).
Proof.
  unfold encMount, decMount, member, encString, readBackAccessType.
  pose proof (decStrings_enc f) as Ef.
  destruct (String.eqb_spec t "") as [->|_];
    destruct f as [|flag flags]; cbn [isEmpty app];
    cbn [knownOnly forallb existsb fst String.eqb Ascii.eqb Bool.eqb andb orb
         field assoc consumeField];
    unfold encStrings in *; rewrite ?Ef; reflexivity.
Qed.

Lemma decCapability_enc c :
  element decCapability zeroCapability (encCapability c) = Some (readBackCapability c).
Proof.
  assert (forall m, field (fun a => Some <$> decAccessMode a) None
                      (Some (encAccessMode m)) = Some (Some m)) as Ea.
  { intros m. destruct m; reflexivity. }
  assert (forall t f, element decMount (csi.Mount "" []) (encMount t f)
                      = Some (readBackAccessType (csi.Mount t f))) as Em.
  { intros t f. rewrite <- decMount_enc. reflexivity. }
  destruct c as [[[|t f]|] [m|]];
    unfold element at 1, field at 1, encCapability, decCapability, readBackCapability;
    cbn [csi.AccessType_ csi.AccessMode app];
    cbn [knownOnly forallb existsb fst String.eqb Ascii.eqb Bool.eqb andb orb
         assoc consumeField];
    rewrite ?Ea, ?Em; reflexivity.
Qed.

Lemma decCapabilities_enc l :
  decCapabilities (JArray (encCapability <$> l)) = Some (readBackCapability <$> l).
Proof.
  unfold decCapabilities. induction l as [|c l IH]; [reflexivity|].
  cbn [fmap list_fmap mapM]. rewrite decCapability_enc. cbn.
  cbn [fmap list_fmap] in IH. rewrite IH. reflexivity.
Qed.

(** Every message is written, and what was written is read with success
    into the zero message as [readBack] of what was written. *)
Lemma Unmarshal_Marshal r :
  int64s r = true ->
  Unmarshal (Some (encRequest r)) csi.zeroRequest = (readBack r, None).
Proof.
  intros Hints.
  assert (forall n current,
            field decString current (Some (encString n)) = Some (utf8.ToValid n))
    as En by reflexivity.
  assert (forall v current,
            field decCapabilities current (Some (JArray (encCapability <$> v)))
            = Some (readBackCapability <$> v)) as Ev.
  { intros v current. apply decCapabilities_enc. }
  assert (forall m current, field decMap current (Some (encMap m))
                            = Some (readBackMap m)) as Em.
  { intros m current. apply decMap_enc. }
  assert (forall cr current,
            json.inInt64 (csi.RequiredBytes cr) && json.inInt64 (csi.LimitBytes cr)
            = true ->
            field (fun j => Some <$> decCapacityRange j) current
              (Some (encCapacityRange cr)) = Some (Some cr)) as Ec.
  { intros cr current Hcr. unfold encCapacityRange. cbn [field].
    fold (encCapacityRange cr). rewrite (decCapacityRange_enc cr Hcr). reflexivity. }
  assert (decRequest csi.zeroRequest
            (match encRequest r with JObject ms => ms | _ => [] end)
          = Some (readBack r)) as Hdec.
  { destruct r as [n c v p s]. unfold int64s in Hints.
    unfold encRequest, decRequest, member, readBack, csi.zeroRequest.
    cbn [csi.Name csi.CapacityRange_ csi.VolumeCapabilities csi.Parameters
         csi.ControllerCreateSecrets] in *.
    destruct (String.eqb_spec n "") as [->|_];
      destruct c as [cr|];
      (destruct (isEmpty v) eqn:Hv; [apply isEmpty_true in Hv as ->|]);
      (destruct (isEmptyMap p) eqn:Hp; [apply isEmptyMap_true in Hp as ->|]);
      (destruct (isEmptyMap s) eqn:Hs; [apply isEmptyMap_true in Hs as ->|]);
      cbn [app];
      cbn [knownOnly forallb existsb fst String.eqb Ascii.eqb Bool.eqb andb orb
           assoc consumeField];
      rewrite ?En, ?Ev, ?Em, ?readBackMap_empty;
      try rewrite (Ec cr _ Hints);
      reflexivity. }
  unfold Unmarshal. unfold encRequest in *. cbn iota in Hdec. rewrite Hdec.
  reflexivity.
Qed.

End CanonicalFacts.

(** ** The volume record and the volume store *)

Lemma os_Create_outcome fs name :
  (exists err, os.Create fs name = (fs, Some err))
  \/ (os.Create fs name
      = (setNodes fs (<[name := File NoValue]> (nodes fs)), None)
      /\ faults fs !! name = None).
Proof.
  unfold os.Create. destruct (faults fs !! name); [left; eauto|].
  destruct (os.parentFault fs name); [left; eauto|].
  destruct (nodes fs !! name) as [[|d|d]|];
    [left; eauto|right; auto|left; eauto|right; auto].
Qed.

Section StoreFacts.
Context {codec : JSONPB}.

Lemma json_Unmarshal_Marshal (capacity : Z) (raw : JSON) :
  json.inInt64 capacity = true ->
  json.Unmarshal
    (JObject [("capacity_bytes", JNumber capacity); ("create_request", raw)])
  = inl (mkVolumeObj capacity (Some raw)).
Proof.
  intros Hrange. unfold json.Unmarshal.
  cbn [json.storeMembers json.storeMember].
  change (json.equalFold "capacity_bytes" "capacity_bytes") with true.
  change (json.equalFold "capacity_bytes" "create_request") with false.
  change (json.equalFold "create_request" "create_request") with true.
  cbn [CreateRequest CapacityBytes]. rewrite Hrange. reflexivity.
Qed.

Lemma save_success (v : volumeInfo) (fs fs' : FS) :
  save v fs = (fs', None) ->
  exists buf,
    jsonpb_Marshal (CreateVolumeRequest v) = inl buf
    /\ faults fs' !! infoPath v = None
    /\ nodes fs' !! infoPath v
       = Some (File (Value (JObject [("capacity_bytes", JNumber (capacityBytes v));
                                     ("create_request", buf)]))).
Proof.
  unfold save, Encode, MarshalJSON, os.Write, json.Marshal.
  destruct (String.eqb (infoPath v) ""); [discriminate|].
  destruct (os_Create_outcome fs (infoPath v)) as [[err ->]|[-> Hfault]];
    [discriminate|].
  destruct (jsonpb_Marshal (CreateVolumeRequest v)) as [buf|err]; [|discriminate].
  intros Hsave. exists buf. split; [reflexivity|].
  cbn [CapacityBytes CreateRequest] in Hsave.
  destruct (decide _); [discriminate|].
  injection Hsave as <-. cbn [faults nodes setNodes].
  split; [exact Hfault|]. rewrite lookup_insert_eq. reflexivity.
Qed.


(** What [load] finds after a [save] that succeeded: the capacity, and
    the request as the codec reads its own text into a zero message. *)
Lemma load_after_save (v : volumeInfo) (fs fs' : FS) (dir : string) :
  json.inInt64 (capacityBytes v) = true ->
  save v fs = (fs', None) ->
  exists buf,
    jsonpb_Marshal (CreateVolumeRequest v) = inl buf
    /\ load (mkVolumeInfo csi.zeroRequest 0 dir (infoPath v)) fs'
       = match jsonpb_Unmarshal (Some buf) csi.zeroRequest with
         | (req, Some err) =>
             (mkVolumeInfo req 0 dir (infoPath v),
              Some (Status Internal
                      ("failed to unmarshal create request: " ++ Error err)))
         | (req, None) => (mkVolumeInfo req (capacityBytes v) dir (infoPath v), None)
         end.
Proof.
  intros Hrange Hsave.
  destruct (save_success v fs fs' Hsave) as (buf & Hbuf & Hfault & Hnode).
  assert (infoPath v <> "") as Hpath.
  { intros Hempty. unfold save in Hsave. rewrite Hempty in Hsave. discriminate. }
  exists buf. split; [exact Hbuf|].
  unfold load. cbn [infoPath].
  destruct (String.eqb_spec (infoPath v) "") as [Hempty|_]; [contradiction|].
  unfold os.Open. rewrite Hfault, Hnode. cbn [Decode].
  unfold UnmarshalJSON. rewrite (json_Unmarshal_Marshal _ _ Hrange).
  cbn [CreateRequest CapacityBytes CreateVolumeRequest capacityBytes path_ infoPath].
  destruct (jsonpb_Unmarshal (Some buf) csi.zeroRequest) as [req [err|]]; reflexivity.
Qed.

End StoreFacts.

(** With the codec of the program, the record that [load] gives after a
    [save] that succeeded. *)
Lemma canonical_load_after_save (v : volumeInfo) (fs fs' : FS) (dir : string) :
  json.inInt64 (capacityBytes v) = true ->
  canonical.int64s (CreateVolumeRequest v) = true ->
  save (codec := canonical.codec) v fs = (fs', None) ->
  load (codec := canonical.codec) (mkVolumeInfo csi.zeroRequest 0 dir (infoPath v)) fs'
  = (mkVolumeInfo (canonical.readBack (CreateVolumeRequest v)) (capacityBytes v) dir
       (infoPath v), None).
Proof.
  intros Hrange Hints Hsave.
  destruct (load_after_save (codec := canonical.codec) v fs fs' dir Hrange Hsave)
    as (buf & Hbuf & ->).
  change (inl (canonical.encRequest (CreateVolumeRequest v)) = inl buf :> JSON + error)
    in Hbuf.
  injection Hbuf as <-.
  change (jsonpb_Unmarshal (Some (canonical.encRequest (CreateVolumeRequest v)))
            csi.zeroRequest)
    with (canonical.Unmarshal (Some (canonical.encRequest (CreateVolumeRequest v)))
            csi.zeroRequest).
  rewrite (Unmarshal_Marshal _ Hints). reflexivity.
Qed.




(** C4, as the code has it.  [getVolume] fails with NotFound, naming the
    path, when the volume directory does not exist and when the directory
    exists and the info file in it does not; when the [stat] of either
    fails in another way it fails with NotFound as well, the message
    being the path followed by the text of the failure. *)
Theorem getVolume_stat_failure_is_NotFound (codec : JSONPB) (s : service) (fs : FS)
  (idOrName : string) :
  let volPath := path.Join [vol s; idOrName] in
  let volInfoPath := path.Join [volPath; infoFileName] in
  (forall err, os.Stat fs volPath = Some err ->
     getVolume s fs idOrName
     = (None, Some (Status NotFound
                      (if os.IsNotExist err then volPath
                       else volPath ++ ": " ++ Error err))))
  /\ (forall err, os.Stat fs volPath = None -> os.Stat fs volInfoPath = Some err ->
        getVolume s fs idOrName
        = (None, Some (Status NotFound
                         (if os.IsNotExist err then volInfoPath
                          else volInfoPath ++ ": " ++ Error err))))
  /\ (nodes fs !! volPath = None -> faults fs !! volPath = None ->
        getVolume s fs idOrName = (None, Some (Status NotFound volPath)))
  /\ (os.Stat fs volPath = None ->
      nodes fs !! volInfoPath = None -> faults fs !! volInfoPath = None ->
        getVolume s fs idOrName = (None, Some (Status NotFound volInfoPath))).
Proof.
  intros volPath volInfoPath.
  assert (forall err, os.Stat fs volPath = Some err ->
            getVolume s fs idOrName
            = (None, Some (Status NotFound
                             (if os.IsNotExist err then volPath
                              else volPath ++ ": " ++ Error err)))) as Hdir.
  { intros err Hstat. unfold getVolume, fileExists. fold volPath.
    rewrite Hstat. destruct (os.IsNotExist err); reflexivity. }
  assert (forall err, os.Stat fs volPath = None -> os.Stat fs volInfoPath = Some err ->
            getVolume s fs idOrName
            = (None, Some (Status NotFound
                             (if os.IsNotExist err then volInfoPath
                              else volInfoPath ++ ": " ++ Error err)))) as Hfile.
  { intros err Hdir' Hstat. unfold getVolume, fileExists. fold volPath.
    rewrite Hdir'. cbn iota. fold volInfoPath.
    rewrite Hstat. destruct (os.IsNotExist err); reflexivity. }
  repeat split; try assumption.
  - intros Hnode Hfault.
    apply (Hdir (PathError "stat" volPath ENOENT)).
    unfold os.Stat. rewrite Hfault, Hnode. reflexivity.
  - intros Hdir' Hnode Hfault.
    apply (Hfile (PathError "stat" volInfoPath ENOENT) Hdir').
    unfold os.Stat. rewrite Hfault, Hnode. reflexivity.
Qed.

Lemma getVolume_stat_failure_is_NotFound_witness :
  getVolume (codec := canonical.codec) vfs volRoot "vol2"
  = (None, Some (Status NotFound "/vol/vol2"))
  /\ getVolume (codec := canonical.codec) vfs volRoot "vol1"
     = (None, Some (Status NotFound "/vol/vol1/.info.json"))
  /\ getVolume (codec := canonical.codec) vfs volRootDenied "vol1"
     = (None, Some (Status NotFound "/vol/vol1: stat /vol/vol1: permission denied")).
Proof.
  split; [|split].
  - destruct (getVolume_stat_failure_is_NotFound canonical.codec vfs volRoot "vol2")
      as (_ & _ & H & _).
    apply H; reflexivity.
  - destruct (getVolume_stat_failure_is_NotFound canonical.codec vfs volRoot "vol1")
      as (_ & _ & _ & H).
    apply H; reflexivity.
  - destruct (getVolume_stat_failure_is_NotFound canonical.codec vfs volRootDenied "vol1")
      as (H & _).
    apply (H (PathError "stat" "/vol/vol1" EACCES)). reflexivity.
Defined.

(** C4, as the claim has it, fails: when the [stat] of the volume
    directory is denied, [getVolume] does not fail with an Internal
    status, its status is NotFound. *)
Lemma getVolume_stat_denied_not_Internal :
  os.Stat volRootDenied (path.Join [vol vfs; "vol1"])
  = Some (PathError "stat" "/vol/vol1" EACCES)
  /\ os.IsNotExist (PathError "stat" "/vol/vol1" EACCES) = false
  /\ ~ (exists msg,
          snd (getVolume (codec := canonical.codec) vfs volRootDenied "vol1")
          = Some (Status Internal msg)).
Proof.
  split; [reflexivity|]. split; [reflexivity|].
  intros [msg H]. vm_compute in H. discriminate H.
Qed.

(** C10.  When the outer text or the create request in it fails to
    decode, [UnmarshalJSON] returns a status with the code Internal and
    the capacity of the record is what it was; the capacity is assigned
    only when both decode, and then it is the one of the text. *)
Theorem UnmarshalJSON_failure_keeps_capacity (codec : JSONPB) (v : volumeInfo)
  (data : JSON) :
  ((exists err, json.Unmarshal data = inr err)
   \/ (exists obj err,
         json.Unmarshal data = inl obj
         /\ snd (jsonpb_Unmarshal (CreateRequest obj) (CreateVolumeRequest v))
            = Some err) ->
   (exists msg, snd (UnmarshalJSON v data) = Some (Status Internal msg))
   /\ capacityBytes (fst (UnmarshalJSON v data)) = capacityBytes v)
  /\ (forall obj,
        json.Unmarshal data = inl obj ->
        snd (jsonpb_Unmarshal (CreateRequest obj) (CreateVolumeRequest v)) = None ->
        snd (UnmarshalJSON v data) = None
        /\ capacityBytes (fst (UnmarshalJSON v data)) = CapacityBytes obj).
Proof.
  unfold UnmarshalJSON. split.
  - intros [[err Houter]|(obj & err & Houter & Hinner)]; rewrite Houter.
    + split; [eexists|]; reflexivity.
    + destruct (jsonpb_Unmarshal (CreateRequest obj) (CreateVolumeRequest v))
        as [req failed].
      cbn [snd] in Hinner. subst failed. split; [eexists|]; reflexivity.
  - intros obj Houter Hinner. rewrite Houter.
    destruct (jsonpb_Unmarshal (CreateRequest obj) (CreateVolumeRequest v))
      as [req failed].
    cbn [snd] in Hinner. subst failed. split; reflexivity.
Qed.

Lemma UnmarshalJSON_failure_keeps_capacity_witness :
  ((exists msg,
      snd (UnmarshalJSON (codec := canonical.codec) vol1Info (JString "vol1"))
      = Some (Status Internal msg))
   /\ capacityBytes (fst (UnmarshalJSON (codec := canonical.codec) vol1Info
                            (JString "vol1"))) = 1024%Z)
  /\ ((exists msg,
         snd (UnmarshalJSON (codec := canonical.codec) vol1Info
                (JObject [("capacity_bytes", JNumber 7);
                          ("create_request", JArray [])]))
         = Some (Status Internal msg))
      /\ capacityBytes
           (fst (UnmarshalJSON (codec := canonical.codec) vol1Info
                   (JObject [("capacity_bytes", JNumber 7);
                             ("create_request", JArray [])]))) = 1024%Z).
Proof.
  split.
  - apply (UnmarshalJSON_failure_keeps_capacity canonical.codec vol1Info
             (JString "vol1")).
    left. eexists. reflexivity.
  - apply (UnmarshalJSON_failure_keeps_capacity canonical.codec vol1Info
             (JObject [("capacity_bytes", JNumber 7); ("create_request", JArray [])])).
    right. exists (mkVolumeObj 7 (Some (JArray []))). eexists.
    split; reflexivity.
Defined.

(** Every error of [UnmarshalJSON] is a status with the code Internal. *)
Lemma UnmarshalJSON_error_is_Internal (codec : JSONPB) (v : volumeInfo) (j : JSON)
  (err : error) :
  snd (UnmarshalJSON v j) = Some err -> exists msg, err = Status Internal msg.
Proof.
  unfold UnmarshalJSON. destruct (json.Unmarshal j) as [obj|e].
  - destruct (jsonpb_Unmarshal (CreateRequest obj) (CreateVolumeRequest v))
      as [req [e|]]; cbn [snd]; intros H; [|discriminate H].
    injection H as <-. eexists. reflexivity.
  - cbn [snd]. intros H. injection H as <-. eexists. reflexivity.
Qed.

(** C5, as the code has it.  [save] fails with a status Internal when the
    info path is empty and when the file cannot be created; [load] fails
    with a status Internal when the info path is empty, when the file
    cannot be opened, and when the file holds a JSON text other than null
    that [UnmarshalJSON] does not decode.  When the text cannot be
    written, and when the file holds no JSON text, the call fails as well,
    with an error.  In none of these cases is success returned. *)
Theorem save_load_failures (codec : JSONPB) (v : volumeInfo) (fs : FS) :
  (infoPath v = "" ->
     save v fs
     = (fs, Some (Status Internal "failed to create volume info file: empty path"))
     /\ load v fs
        = (v, Some (Status Internal "failed to load volume info file: empty path")))
  /\ (forall err,
        infoPath v <> "" -> snd (os.Create fs (infoPath v)) = Some err ->
        save v fs
        = (fs, Some (Status Internal
                       ("failed to create volume info file: " ++ infoPath v
                          ++ ": " ++ Error err))))
  /\ (forall fs1 j,
        infoPath v <> "" -> os.Create fs (infoPath v) = (fs1, None) ->
        MarshalJSON v = inl j -> infoPath v ∈ unwritable fs ->
        snd (save v fs) <> None)
  /\ (forall err,
        infoPath v <> "" -> os.Open fs (infoPath v) = inr err ->
        load v fs
        = (v, Some (Status Internal
                      ("failed to open volume info file: " ++ infoPath v
                         ++ ": " ++ Error err))))
  /\ (forall j,
        infoPath v <> "" -> os.Open fs (infoPath v) = inl (File (Value j)) ->
        j <> JNull -> snd (UnmarshalJSON v j) <> None ->
        exists msg, snd (load v fs) = Some (Status Internal msg))
  /\ (forall data,
        infoPath v <> "" -> os.Open fs (infoPath v) = inl (File data) ->
        (forall j, data <> Value j) ->
        snd (load v fs) <> None).
Proof.
  repeat split.
  - unfold save. rewrite H. reflexivity.
  - unfold load. rewrite H. reflexivity.
  - intros err Hpath Hcreate. unfold save.
    destruct (String.eqb_spec (infoPath v) "") as [|_]; [contradiction|].
    destruct (os.Create fs (infoPath v)) as [fs1 failed].
    cbn [snd] in Hcreate. subst failed. reflexivity.
  - intros fs1 j Hpath Hcreate Hmarshal Hfull. unfold save.
    destruct (String.eqb_spec (infoPath v) "") as [|_]; [contradiction|].
    rewrite Hcreate. unfold Encode. rewrite Hmarshal. unfold os.Write.
    assert (unwritable fs1 = unwritable fs) as ->.
    { destruct (os_Create_outcome fs (infoPath v)) as [[e He]|[Hok _]];
        rewrite Hcreate in *; [discriminate|].
      injection Hok as ->. reflexivity. }
    destruct (decide (infoPath v ∈ unwritable fs)); [discriminate|contradiction].
  - intros err Hpath Hopen. unfold load.
    destruct (String.eqb_spec (infoPath v) "") as [|_]; [contradiction|].
    rewrite Hopen. reflexivity.
  - intros j Hpath Hopen Hnull Hfail. unfold load.
    destruct (String.eqb_spec (infoPath v) "") as [|_]; [contradiction|].
    rewrite Hopen.
    assert (Decode (File (Value j)) v = UnmarshalJSON v j) as ->
        by (destruct j; [contradiction|reflexivity..]).
    destruct (snd (UnmarshalJSON v j)) as [err|] eqn:Herr; [|contradiction].
    destruct (UnmarshalJSON_error_is_Internal _ _ _ _ Herr) as [msg ->].
    exists msg. reflexivity.
  - intros data Hpath Hopen Hnone. unfold load.
    destruct (String.eqb_spec (infoPath v) "") as [|_]; [contradiction|].
    rewrite Hopen.
    destruct data as [| |j]; [discriminate..|].
    exfalso. apply (Hnone j). reflexivity.
Qed.

Lemma save_load_failures_witness :
  (exists msg,
     snd (save (codec := canonical.codec) (blankInfo "/vol/vol1" "") volRoot)
     = Some (Status Internal msg))
  /\ (exists msg,
        snd (save (codec := canonical.codec) (blankInfo "/vol" "/vol") volRoot)
        = Some (Status Internal msg))
  /\ snd (save (codec := canonical.codec) vol1Info volRootFull) <> None
  /\ (exists msg,
        snd (load (codec := canonical.codec)
               (blankInfo "/vol/vol1" "/vol/vol1/.info.json") volRoot)
        = Some (Status Internal msg))
  /\ (exists msg,
        snd (load (codec := canonical.codec)
               (blankInfo "/vol/vol1" "/vol/vol1/.info.json") volRootWrongShape)
        = Some (Status Internal msg))
  /\ snd (load (codec := canonical.codec)
            (blankInfo "/vol/vol1" "/vol/vol1/.info.json") volRootGarbled) <> None.
Proof.
  split; [|split; [|split; [|split; [|split]]]].
  - destruct (save_load_failures canonical.codec (blankInfo "/vol/vol1" "") volRoot)
      as (H & _).
    destruct (H eq_refl) as [-> _]. eexists. reflexivity.
  - destruct (save_load_failures canonical.codec (blankInfo "/vol" "/vol") volRoot)
      as (_ & H & _).
    rewrite (H (PathError "open" "/vol" EISDIR)); [eexists; reflexivity|discriminate|].
    reflexivity.
  - destruct (save_load_failures canonical.codec vol1Info volRootFull)
      as (_ & _ & H & _).
    eapply H; [discriminate|reflexivity|reflexivity|].
    vm_compute. reflexivity.
  - destruct (save_load_failures canonical.codec
                (blankInfo "/vol/vol1" "/vol/vol1/.info.json") volRoot)
      as (_ & _ & _ & H & _).
    rewrite (H (PathError "open" "/vol/vol1/.info.json" ENOENT));
      [eexists; reflexivity|discriminate|reflexivity].
  - destruct (save_load_failures canonical.codec
                (blankInfo "/vol/vol1" "/vol/vol1/.info.json") volRootWrongShape)
      as (_ & _ & _ & _ & H & _).
    apply (H (JArray [])); [discriminate|reflexivity|discriminate|discriminate].
  - destruct (save_load_failures canonical.codec
                (blankInfo "/vol/vol1" "/vol/vol1/.info.json") volRootGarbled)
      as (_ & _ & _ & _ & _ & H).
    apply (H BadSyntax); [discriminate|reflexivity|discriminate].
Defined.

(** C5, as the claim has it, fails: when the info file cannot be written
    the error of [save] is the one of the write, and when the info file
    holds no JSON text the error of [load] is the one of the decoder;
    neither is a status with the code Internal. *)
Lemma save_load_library_errors_not_Internal :
  snd (save (codec := canonical.codec) vol1Info volRootFull)
  = Some (PathError "write" "/vol/vol1/.info.json" ENOSPC)
  /\ ~ (exists msg,
          snd (save (codec := canonical.codec) vol1Info volRootFull)
          = Some (Status Internal msg))
  /\ snd (load (codec := canonical.codec)
            (blankInfo "/vol/vol1" "/vol/vol1/.info.json") volRootGarbled)
     = Some SyntaxError
  /\ ~ (exists msg,
          snd (load (codec := canonical.codec)
                 (blankInfo "/vol/vol1" "/vol/vol1/.info.json") volRootGarbled)
          = Some (Status Internal msg)).
Proof.
  assert (snd (save (codec := canonical.codec) vol1Info volRootFull)
          = Some (PathError "write" "/vol/vol1/.info.json" ENOSPC)) as Hsave
      by (vm_compute; reflexivity).
  assert (snd (load (codec := canonical.codec)
                 (blankInfo "/vol/vol1" "/vol/vol1/.info.json") volRootGarbled)
          = Some SyntaxError) as Hload
      by (vm_compute; reflexivity).
  repeat split; try assumption.
  - intros [msg H]. rewrite Hsave in H. discriminate H.
  - intros [msg H]. rewrite Hload in H. discriminate H.
Qed.

(** * Further properties *)

(** ** The resolver against its description without the cache *)

Lemma find_snoc {A} (f : A -> bool) (l : list A) (x : A) :
  List.find f (l ++ [x])
  = match List.find f l with
    | Some y => Some y
    | None => if f x then Some x else None
    end.
Proof.
  induction l as [|y l IH]; cbn [app List.find].
  - destruct (f x); reflexivity.
  - destruct (f y); [reflexivity|exact IH].
Qed.

Lemma cacheOf_empty : cacheOf ∅ [].
Proof. intros src. apply lookup_empty. Qed.

Lemma ScanEntry_resolves entry cache earlier :
  cacheOf cache earlier ->
  ScanEntry entry cache
  = (if relevant entry then setSource (infoOf entry) (resolvedSource earlier entry)
     else zeroInfo,
     relevant entry, None, snd (ScanEntry entry cache))
  /\ cacheOf (snd (ScanEntry entry cache)) (earlier ++ [entry]).
Proof.
  intros Hinv. unfold resolvedSource.
  destruct (relevant entry) eqn:Hr.
  - pose proof (Hinv (MountSource entry)) as Hsrc.
    destruct (firstSeen earlier (MountSource entry)) as [anchor|] eqn:Hfirst.
    + rewrite (ScanEntry_hit _ _ anchor Hr Hsrc). split; [reflexivity|].
      intros src. cbn [snd]. unfold firstSeen. rewrite find_snoc.
      fold (firstSeen earlier src). rewrite Hinv.
      destruct (firstSeen earlier src) eqn:Hsrc'; [reflexivity|].
      rewrite Hr. cbn [andb].
      destruct (String.eqb_spec (MountSource entry) src) as [<-|_]; [|reflexivity].
      congruence.
    + rewrite (ScanEntry_miss _ _ Hr Hsrc). split; [reflexivity|].
      intros src. cbn [snd]. unfold firstSeen. rewrite find_snoc.
      fold (firstSeen earlier src). rewrite Hr. cbn [andb].
      destruct (String.eqb_spec (MountSource entry) src) as [<-|Hne].
      * rewrite lookup_insert_eq, Hfirst. reflexivity.
      * rewrite lookup_insert_ne by exact Hne. rewrite Hinv.
        destruct (firstSeen earlier src); reflexivity.
  - rewrite (ScanEntry_irrelevant _ _ Hr). split; [reflexivity|].
    intros src. cbn [snd]. unfold firstSeen. rewrite find_snoc.
    fold (firstSeen earlier src). rewrite Hr. cbn [andb]. rewrite Hinv.
    destruct (firstSeen earlier src); reflexivity.
Qed.

Lemma scanEntries_resolves entries cache earlier :
  cacheOf cache earlier ->
  fst (scanEntries entries cache) = (resolveFrom earlier entries, None)
  /\ cacheOf (snd (scanEntries entries cache)) (earlier ++ entries).
Proof.
  revert cache earlier. induction entries as [|e rest IH]; intros cache earlier Hinv.
  - rewrite app_nil_r. split; [reflexivity|exact Hinv].
  - destruct (ScanEntry_resolves e cache earlier Hinv) as [Hstep Hinv'].
    destruct (IH _ _ Hinv') as [Hrest Hinv''].
    rewrite (proj1 (scanEntries_cons e rest cache)). cbn [fst snd].
    rewrite <- app_assoc in Hinv''. split; [|exact Hinv''].
    rewrite Hstep at 1. cbn [fst snd resolveFrom].
    destruct (scanEntries rest (snd (ScanEntry e cache))) as [[infos failed] cache'].
    cbn [fst snd] in *. injection Hrest as -> ->.
    destruct (relevant e); reflexivity.
Qed.

Lemma getMounts_scan entries :
  getMounts (inl entries) = (resolveFrom [] entries, None).
Proof.
  unfold getMounts. apply (scanEntries_resolves entries ∅ []), cacheOf_empty.
Qed.

(** X1.  The records of a scan are those of the description without the
    cache: one record for each relevant entry, in table order, whose
    source is resolved against the first relevant entry with the same
    source among the entries before it, and is the raw source when there
    is none.  The scan of a table that can be read never fails. *)
Theorem getMounts_resolveFrom (entries : list Entry) :
  getMounts (inl entries) = (resolveFrom [] entries, None).
Proof.
  unfold getMounts.
  destruct (scanEntries_resolves entries ∅ [] cacheOf_empty) as [Hrecords _].
  exact Hrecords.
Qed.

Lemma firstSeen_Some earlier src anchor :
  firstSeen earlier src = Some anchor ->
  In anchor earlier /\ relevant anchor = true /\ MountSource anchor = src.
Proof.
  intros H. apply find_some in H as [Hin H].
  apply andb_true_iff in H as [Hr Hs]. apply String.eqb_eq in Hs. auto.
Qed.

Lemma firstSeen_None earlier src e :
  firstSeen earlier src = None ->
  In e earlier -> relevant e = true -> MountSource e <> src.
Proof.
  intros H Hin Hr Hs.
  pose proof (find_none _ _ H e Hin) as Hf. cbn in Hf.
  rewrite Hr in Hf. apply String.eqb_eq in Hs. rewrite Hs in Hf. discriminate.
Qed.

(** X2.  At the end of a scan the cache holds, for each source, the first
    relevant entry of the table with that source: what it holds for a key
    is an entry of the table, relevant, with that key as its source, and
    no relevant entry with that source comes before it; and the source of
    every relevant entry of the table is a key of the cache. *)
Theorem scan_cache_holds_first_relevant (entries : list Entry) (src : string) :
  let cache := snd (scanEntries entries ∅) in
  cache !! src = firstSeen entries src
  /\ (forall anchor, cache !! src = Some anchor ->
        In anchor entries /\ relevant anchor = true /\ MountSource anchor = src)
  /\ (forall e, In e entries -> relevant e = true -> MountSource e = src ->
        is_Some (cache !! src)).
Proof.
  intros cache.
  assert (cache !! src = firstSeen entries src) as Hcache.
  { apply (proj2 (scanEntries_resolves entries ∅ [] cacheOf_empty)). }
  split; [exact Hcache|]. split.
  - intros anchor H. rewrite Hcache in H. apply firstSeen_Some, H.
  - intros e Hin Hr Hs. rewrite Hcache.
    destruct (firstSeen entries src) eqn:Hf; [eauto|].
    exfalso. exact (firstSeen_None _ _ e Hf Hin Hr Hs).
Qed.

Lemma scan_cache_holds_first_relevant_witness :
  snd (scanEntries [vol1Mount; vol1Published] ∅) !! "/dev/sda1" = Some vol1Mount
  /\ is_Some (snd (scanEntries [vol1Mount; vol1Published] ∅) !! "/dev/sda1").
Proof.
  destruct (scan_cache_holds_first_relevant [vol1Mount; vol1Published] "/dev/sda1")
    as (H1 & _ & H3).
  split.
  - rewrite H1. reflexivity.
  - apply (H3 vol1Published).
    + right. left. reflexivity.
    + reflexivity.
    + reflexivity.
Defined.

Lemma resolveFrom_fields earlier entries :
  map Path (resolveFrom earlier entries)
  = map MountPoint (List.filter relevant entries)
  /\ map Device (resolveFrom earlier entries)
     = map MountSource (List.filter relevant entries)
  /\ map Type_ (resolveFrom earlier entries)
     = map FSType (List.filter relevant entries)
  /\ map Opts (resolveFrom earlier entries)
     = map MountOpts (List.filter relevant entries).
Proof.
  revert earlier. induction entries as [|e rest IH]; intros earlier.
  - repeat split.
  - destruct (IH (earlier ++ [e])) as (H1 & H2 & H3 & H4).
    cbn [resolveFrom List.filter]. destruct (relevant e); cbn [app map];
      rewrite ?H1, ?H2, ?H3, ?H4; repeat split.
Qed.

(** X3.  The resolver rewrites nothing but the source: the records of a
    scan are, in table order, the relevant entries of the table with
    their mount point as path, their raw source as device, their
    filesystem type and their options; so there are as many records as
    relevant entries. *)
Theorem getMounts_keeps_entry_fields (entries : list Entry) :
  let records := fst (getMounts (inl entries)) in
  map Path records = map MountPoint (List.filter relevant entries)
  /\ map Device records = map MountSource (List.filter relevant entries)
  /\ map Type_ records = map FSType (List.filter relevant entries)
  /\ map Opts records = map MountOpts (List.filter relevant entries)
  /\ length records = length (List.filter relevant entries).
Proof.
  intros records. unfold records. rewrite getMounts_scan. cbn [fst].
  destruct (resolveFrom_fields [] entries) as (H1 & H2 & H3 & H4).
  repeat split; try assumption.
  rewrite <- (length_map Path), H1, length_map. reflexivity.
Qed.

Lemma find_append {A} (f : A -> bool) (a b : list A) :
  List.find f (a ++ b)
  = match List.find f a with Some x => Some x | None => List.find f b end.
Proof.
  induction a as [|x a IH]; [reflexivity|].
  cbn [app List.find]. destruct (f x); [reflexivity|exact IH].
Qed.

Lemma find_all_false {A} (f : A -> bool) (l : list A) :
  (forall x, In x l -> f x = false) -> List.find f l = None.
Proof.
  induction l as [|x l IH]; intros H; [reflexivity|].
  cbn [List.find]. rewrite (H x (or_introl eq_refl)).
  apply IH. intros y Hy. apply H. right. exact Hy.
Qed.

Lemma resolveFrom_In earlier before entry after :
  relevant entry = true ->
  In (setSource (infoOf entry) (resolvedSource (earlier ++ before) entry))
     (resolveFrom earlier (before ++ entry :: after)).
Proof.
  intros Hr. revert earlier. induction before as [|b before IH]; intros earlier.
  - rewrite app_nil_r. cbn [app resolveFrom]. rewrite Hr. left. reflexivity.
  - cbn [app resolveFrom]. apply in_or_app. right.
    specialize (IH (earlier ++ [b])). rewrite <- app_assoc in IH. exact IH.
Qed.

Lemma getVolumeMountPaths_answer entries mntDir volumeID :
  getVolumeMountPaths (inl entries) mntDir volumeID
  = (map Path (List.filter
                 (fun mi => String.eqb (Source mi) (path.Join [mntDir; volumeID]))
                 (resolveFrom [] entries)), None).
Proof.
  unfold getVolumeMountPaths. rewrite getMounts_scan.
  rewrite getVolumeMountPaths_loop. reflexivity.
Qed.

(** X4.  Every path that the query returns is the mount point of a
    relevant entry of the table, and the query returns at most one path
    for each relevant entry. *)
Theorem getVolumeMountPaths_within_table (entries : list Entry)
  (mntDir volumeID : string) :
  let answer := fst (getVolumeMountPaths (inl entries) mntDir volumeID) in
  (forall p, In p answer ->
     exists e, In e entries /\ relevant e = true /\ MountPoint e = p)
  /\ (length answer <= length (List.filter relevant entries))%nat.
Proof.
  intros answer. unfold answer. rewrite getVolumeMountPaths_answer. cbn [fst].
  destruct (resolveFrom_fields [] entries) as (Hpath & _). split.
  - intros p Hin. apply in_map_iff in Hin as (mi & <- & Hin).
    apply filter_In in Hin as [Hin _].
    assert (In (Path mi) (map MountPoint (List.filter relevant entries))) as Hp
        by (rewrite <- Hpath; apply in_map, Hin).
    apply in_map_iff in Hp as (e & He & Hin').
    apply filter_In in Hin' as [Hin' Hr]. eauto.
  - rewrite length_map.
    rewrite <- (length_map MountPoint), <- Hpath, length_map.
    apply filter_length_le.
Qed.

Lemma getVolumeMountPaths_within_table_witness :
  exists e, In e [vol1Mount; vol1Published] /\ relevant e = true
            /\ MountPoint e = "/published/x".
Proof.
  apply (getVolumeMountPaths_within_table [vol1Mount; vol1Published]
           "/mnt/vol1" "subdir").
  vm_compute. left. reflexivity.
Defined.

(** X5.  A bind mount of a volume is reported.  When the first relevant
    entry with its source is [first], and a later relevant entry [entry]
    has the same source and [Join (MountPoint first) (Root entry)] is the
    volume's path under the mount directory, then the mount point of
    [entry] is among the paths that the query returns. *)
Theorem getVolumeMountPaths_reports_bind_mount (pre mid post : list Entry)
  (first entry : Entry) (mntDir volumeID : string) :
  relevant first = true ->
  (forall e, In e pre -> relevant e = true -> MountSource e <> MountSource first) ->
  relevant entry = true ->
  MountSource entry = MountSource first ->
  path.Join [MountPoint first; Root entry] = path.Join [mntDir; volumeID] ->
  In (MountPoint entry)
     (fst (getVolumeMountPaths (inl (pre ++ first :: mid ++ entry :: post))
             mntDir volumeID)).
Proof.
  intros Hfirst Hpre Hentry Hsame Hjoin.
  rewrite getVolumeMountPaths_answer. cbn [fst].
  assert (firstSeen (pre ++ first :: mid) (MountSource entry) = Some first) as Hseen.
  { unfold firstSeen. rewrite find_append.
    assert (List.find (fun e => relevant e && String.eqb (MountSource e) (MountSource entry))
              pre = None) as ->.
    { apply find_all_false. intros e Hin.
      destruct (relevant e) eqn:Hr; [|reflexivity]. cbn [andb].
      apply String.eqb_neq. rewrite Hsame. apply Hpre; assumption. }
    cbn [List.find]. rewrite Hfirst, Hsame, String.eqb_refl. reflexivity. }
  apply in_map_iff.
  exists (setSource (infoOf entry) (resolvedSource (pre ++ first :: mid) entry)).
  split; [reflexivity|]. apply filter_In. split.
  - pose proof (resolveFrom_In [] (pre ++ first :: mid) entry post Hentry) as H.
    rewrite <- app_assoc in H. exact H.
  - unfold resolvedSource. rewrite Hseen. cbn [Source setSource].
    apply String.eqb_eq, Hjoin.
Qed.

Lemma getVolumeMountPaths_reports_bind_mount_witness :
  In "/published/x"
     (fst (getVolumeMountPaths (inl ([] ++ vol1Mount :: [] ++ vol1Published :: []))
             "/mnt/vol1" "subdir")).
Proof.
  apply (getVolumeMountPaths_reports_bind_mount [] [] [] vol1Mount vol1Published
           "/mnt/vol1" "subdir").
  - reflexivity.
  - intros e [].
  - reflexivity.
  - reflexivity.
  - reflexivity.
Defined.

(** X6.  Entries further down the table change nothing above them: the
    records of a table are the first records of every table that it
    begins, and the cached entry of a source stays the same. *)
Theorem getMounts_prefix_stable (entries more : list Entry) (src : string)
  (anchor : Entry) :
  (exists later,
     fst (getMounts (inl (entries ++ more))) = fst (getMounts (inl entries)) ++ later)
  /\ (snd (scanEntries entries ∅) !! src = Some anchor ->
      snd (scanEntries (entries ++ more) ∅) !! src = Some anchor).
Proof.
  split.
  - unfold getMounts. rewrite scanEntries_app. cbn [fst]. eauto.
  - intros H. rewrite scanEntries_app. cbn [snd].
    apply scanEntries_keeps, H.
Qed.

Lemma getMounts_prefix_stable_witness :
  snd (scanEntries ([vol1Mount] ++ [vol1Published]) ∅) !! "/dev/sda1"
  = Some vol1Mount.
Proof.
  apply (getMounts_prefix_stable [vol1Mount] [vol1Published] "/dev/sda1" vol1Mount).
  reflexivity.
Defined.

(** ** More on the volume record and the volume store *)

Section StoreMore.
Context {codec : JSONPB}.

(** What [save] leaves behind, case by case. *)
Lemma save_outcome (v : volumeInfo) (fs : FS) :
  let truncated := setNodes fs (<[infoPath v := File NoValue]> (nodes fs)) in
  (save v fs = (fs, snd (save v fs)) /\ snd (save v fs) <> None
   /\ (infoPath v = "" \/ snd (os.Create fs (infoPath v)) <> None))
  \/ (save v fs = (truncated, snd (save v fs)) /\ snd (save v fs) <> None
      /\ infoPath v <> "" /\ faults fs !! infoPath v = None
      /\ snd (os.Create fs (infoPath v)) = None)
  \/ (exists j,
        save v fs = (setNodes truncated (<[infoPath v := File (Value j)]> (nodes truncated)),
                     None)
        /\ infoPath v <> "" /\ faults fs !! infoPath v = None
        /\ snd (os.Create fs (infoPath v)) = None).
Proof.
  intros truncated. unfold save.
  destruct (String.eqb_spec (infoPath v) "") as [Hempty|Hpath].
  { left. repeat split; [discriminate|left; exact Hempty]. }
  destruct (os_Create_outcome fs (infoPath v)) as [[err ->]|[-> Hfault]].
  { left. repeat split; [discriminate|right; discriminate]. }
  fold truncated. unfold Encode.
  destruct (MarshalJSON v) as [j|err].
  - unfold os.Write. destruct (decide (infoPath v ∈ unwritable truncated)).
    + right. left. repeat split; try assumption; discriminate.
    + right. right. exists j. repeat split; assumption.
  - right. left. repeat split; try assumption; discriminate.
Qed.

Lemma UnmarshalJSON_keeps_paths (v : volumeInfo) (j : JSON) :
  path_ (fst (UnmarshalJSON v j)) = path_ v
  /\ infoPath (fst (UnmarshalJSON v j)) = infoPath v.
Proof.
  unfold UnmarshalJSON. destruct (json.Unmarshal j) as [obj|err]; [|split; reflexivity].
  destruct (jsonpb_Unmarshal (CreateRequest obj) (CreateVolumeRequest v))
    as [req [err|]]; split; reflexivity.
Qed.

Lemma load_keeps_paths_both (v : volumeInfo) (fs : FS) :
  path_ (fst (load v fs)) = path_ v /\ infoPath (fst (load v fs)) = infoPath v.
Proof.
  unfold load. destruct (String.eqb (infoPath v) ""); [split; reflexivity|].
  destruct (os.Open fs (infoPath v)) as [[|[| |j]|d]|err]; try (split; reflexivity).
  destruct j; try (split; reflexivity); apply UnmarshalJSON_keeps_paths.
Qed.

Lemma load_error_kind (v : volumeInfo) (fs : FS) (err : error) :
  snd (load v fs) = Some err ->
  (exists msg, err = Status Internal msg) \/ (forall c msg, err <> Status c msg).
Proof.
  unfold load. destruct (String.eqb (infoPath v) "").
  { intros H. injection H as <-. left. eauto. }
  destruct (os.Open fs (infoPath v)) as [[|[| |j]|d]|e]; cbn [Decode snd];
    try (intros H; injection H as <-; (left; eexists; reflexivity)
                                      || (right; discriminate)).
  assert (snd (UnmarshalJSON v j) = Some err -> exists msg, err = Status Internal msg)
    as Hun by apply UnmarshalJSON_error_is_Internal.
  destruct j; cbn [snd]; try discriminate; auto.
Qed.

End StoreMore.

Lemma Clean_not_empty p : path.Clean p <> "".
Proof.
  unfold path.Clean. destruct (bytes p) as [|c rest]; [discriminate|].
  match goal with |- context [match ?o with [] => _ | _ :: _ => _ end] =>
    destruct o as [|x out] end; [discriminate|].
  unfold str. cbn [rev]. destruct (rev out); discriminate.
Qed.

Lemma Join_last_not_empty (dir name : string) :
  name <> "" -> path.Join [dir; name] <> "".
Proof.
  intros Hname. cbn [path.Join].
  destruct (String.eqb dir ""); [|apply Clean_not_empty].
  destruct (String.eqb_spec name "") as [|_]; [contradiction|apply Clean_not_empty].
Qed.

(** X7.  [save] writes to the info file and to nothing else: the faults
    and the write protection of the file system stay as they were and so
    does the node at every other path, whether the save succeeds or not;
    and when the info path is empty or the file cannot be created, the
    file system is left as it was. *)
Theorem save_touches_only_info_file (codec : JSONPB) (v : volumeInfo) (fs : FS) :
  let fs' := fst (save v fs) in
  faults fs' = faults fs
  /\ unwritable fs' = unwritable fs
  /\ (forall p, p <> infoPath v -> nodes fs' !! p = nodes fs !! p)
  /\ (infoPath v = "" \/ snd (os.Create fs (infoPath v)) <> None -> fs' = fs).
Proof.
  intros fs'. unfold fs'.
  destruct (save_outcome v fs)
    as [(-> & _ & _)|[(-> & _ & Hpath & _ & Hcreate)
                     |(j & -> & Hpath & _ & Hcreate)]];
    cbn [fst faults unwritable nodes setNodes].
  - repeat split.
  - repeat split.
    + intros p Hp. apply lookup_insert_ne. congruence.
    + intros [Hempty|Hfail]; contradiction.
  - repeat split.
    + intros p Hp. rewrite !lookup_insert_ne by congruence. reflexivity.
    + intros [Hempty|Hfail]; contradiction.
Qed.

Lemma save_touches_only_info_file_witness :
  nodes (fst (save (codec := canonical.codec) vol1Info volRoot)) !! "/vol"
  = Some Dir.
Proof.
  destruct (save_touches_only_info_file canonical.codec vol1Info volRoot)
    as (_ & _ & H & _).
  rewrite H; [reflexivity|discriminate].
Defined.



(** X9.  Every gRPC status that [save] or [load] returns has the code
    Internal. *)
Theorem save_load_status_is_Internal (codec : JSONPB) (v : volumeInfo) (fs : FS)
  (c : Code) (msg : string) :
  (snd (save v fs) = Some (Status c msg) -> c = Internal)
  /\ (snd (load v fs) = Some (Status c msg) -> c = Internal).
Proof.
  split.
  - unfold save. destruct (String.eqb (infoPath v) "").
    { intros H. injection H as <- _. reflexivity. }
    destruct (os.Create fs (infoPath v)) as [fs1 [err|]].
    { intros H. injection H as <- _. reflexivity. }
    unfold Encode. destruct (MarshalJSON v) as [j|err]; [|cbn [snd]; discriminate].
    unfold os.Write. destruct (decide _); cbn [snd]; discriminate.
  - intros H. destruct (load_error_kind v fs _ H) as [[msg' Hc]|Hc].
    + injection Hc as -> _. reflexivity.
    + exfalso. exact (Hc c msg eq_refl).
Qed.

Lemma save_load_status_is_Internal_witness :
  exists c,
    snd (save (codec := canonical.codec) (blankInfo "/vol/vol1" "") volRoot)
    = Some (Status c "failed to create volume info file: empty path")
    /\ c = Internal.
Proof.
  exists Internal. split; [reflexivity|].
  destruct (save_load_status_is_Internal canonical.codec
              (blankInfo "/vol/vol1" "") volRoot Internal
              "failed to create volume info file: empty path") as [H _].
  apply H. reflexivity.
Defined.

(** X10.  [load] and [UnmarshalJSON] assign nothing to the two paths of
    the record: whatever the file or the text holds and whether they fail
    or not, the directory and the info path of the record stay. *)
Theorem load_keeps_paths (codec : JSONPB) (v : volumeInfo) (fs : FS) (j : JSON) :
  path_ (fst (load v fs)) = path_ v
  /\ infoPath (fst (load v fs)) = infoPath v
  /\ path_ (fst (UnmarshalJSON v j)) = path_ v
  /\ infoPath (fst (UnmarshalJSON v j)) = infoPath v.
Proof.
  destruct (load_keeps_paths_both v fs) as [H1 H2].
  destruct (UnmarshalJSON_keeps_paths v j) as [H3 H4]. auto.
Qed.

Lemma getVolume_steps (codec : JSONPB) (s : service) (fs : FS) (idOrName : string) :
  let volPath := path.Join [vol s; idOrName] in
  let volInfoPath := path.Join [volPath; infoFileName] in
  getVolume s fs idOrName
  = match os.Stat fs volPath with
    | Some err =>
        (None, Some (Status NotFound
                       (if os.IsNotExist err then volPath
                        else volPath ++ ": " ++ Error err)))
    | None =>
        match os.Stat fs volInfoPath with
        | Some err =>
            (None, Some (Status NotFound
                           (if os.IsNotExist err then volInfoPath
                            else volInfoPath ++ ": " ++ Error err)))
        | None =>
            match load (mkVolumeInfo csi.zeroRequest 0 volPath volInfoPath) fs with
            | (_, Some err) => (None, Some err)
            | (vol', None) => (Some vol', None)
            end
        end
    end.
Proof.
  intros volPath volInfoPath. unfold getVolume, fileExists.
  fold volPath. destruct (os.Stat fs volPath) as [err|].
  - destruct (os.IsNotExist err); reflexivity.
  - cbn iota. fold volInfoPath. destruct (os.Stat fs volInfoPath) as [err|].
    + destruct (os.IsNotExist err); reflexivity.
    + reflexivity.
Qed.

(** X11.  [getVolume] returns a record or an error, never both and never
    neither; and a record that it returns is bound to the directory
    [Join (vol s) idOrName] and to the info file in it, both of which
    exist. *)
Theorem getVolume_record_or_error (codec : JSONPB) (s : service) (fs : FS)
  (idOrName : string) :
  let volPath := path.Join [vol s; idOrName] in
  let volInfoPath := path.Join [volPath; infoFileName] in
  ((exists v, getVolume s fs idOrName = (Some v, None))
   \/ (exists err, getVolume s fs idOrName = (None, Some err)))
  /\ (forall v, fst (getVolume s fs idOrName) = Some v ->
        path_ v = volPath /\ infoPath v = volInfoPath
        /\ os.Stat fs volPath = None /\ os.Stat fs volInfoPath = None).
Proof.
  intros volPath volInfoPath.
  rewrite (getVolume_steps codec s fs idOrName). fold volPath volInfoPath.
  destruct (os.Stat fs volPath) as [err|]; [split; [eauto|discriminate]|].
  destruct (os.Stat fs volInfoPath) as [err|]; [split; [eauto|discriminate]|].
  pose proof (load_keeps_paths_both
                (mkVolumeInfo csi.zeroRequest 0 volPath volInfoPath) fs) as [Hp Hi].
  destruct (load (mkVolumeInfo csi.zeroRequest 0 volPath volInfoPath) fs)
    as [vol' [err|]]; split; eauto; try discriminate.
  cbn [fst path_ infoPath] in *. intros v Hv. injection Hv as <-. auto.
Qed.

Lemma getVolume_record_or_error_witness :
  exists v,
    fst (getVolume (codec := canonical.codec) vfs
           (fst (save (codec := canonical.codec) vol1Info volRoot)) "vol1") = Some v
    /\ path_ v = "/vol/vol1" /\ infoPath v = "/vol/vol1/.info.json".
Proof.
  destruct (getVolume_record_or_error canonical.codec vfs
              (fst (save (codec := canonical.codec) vol1Info volRoot)) "vol1")
    as [_ H].
  destruct (fst (getVolume (codec := canonical.codec) vfs
                   (fst (save (codec := canonical.codec) vol1Info volRoot)) "vol1"))
    as [v|] eqn:Hv.
  - exists v. destruct (H v eq_refl) as (H1 & H2 & _).
    split; [reflexivity|]. split; assumption.
  - vm_compute in Hv. discriminate Hv.
Defined.

(** X12.  An error of [getVolume] has the code NotFound exactly when the
    [stat] of the volume directory or of the info file failed; an error
    that comes from the load of an info file that exists never has that
    code.  So when both are there and the info file cannot be opened, the
    error is the status Internal of [load] that names the file and the
    failure. *)
Theorem getVolume_NotFound_iff_stat_failed (codec : JSONPB) (s : service) (fs : FS)
  (idOrName : string) :
  let volPath := path.Join [vol s; idOrName] in
  let volInfoPath := path.Join [volPath; infoFileName] in
  (forall err,
     snd (getVolume s fs idOrName) = Some err ->
     (codeOf err = NotFound <->
      os.Stat fs volPath <> None \/ os.Stat fs volInfoPath <> None))
  /\ (forall e,
        os.Stat fs volPath = None -> os.Stat fs volInfoPath = None ->
        os.Open fs volInfoPath = inr e ->
        getVolume s fs idOrName
        = (None, Some (Status Internal
                         ("failed to open volume info file: " ++ volInfoPath
                            ++ ": " ++ Error e)))).
Proof.
  intros volPath volInfoPath.
  rewrite (getVolume_steps codec s fs idOrName). fold volPath volInfoPath.
  split.
  - intros err.
    destruct (os.Stat fs volPath) as [e|].
    { intros H. injection H as <-. split; [left; discriminate|reflexivity]. }
    destruct (os.Stat fs volInfoPath) as [e|].
    { intros H. injection H as <-. split; [right; discriminate|reflexivity]. }
    pose proof (load_error_kind
                  (mkVolumeInfo csi.zeroRequest 0 volPath volInfoPath) fs) as Hkind.
    destruct (load (mkVolumeInfo csi.zeroRequest 0 volPath volInfoPath) fs)
      as [vol' [e|]]; [|discriminate].
    cbn [snd] in *. intros H. injection H as <-.
    split.
    + intros Hcode. exfalso.
      destruct (Hkind e eq_refl) as [[msg ->]|Hno]; [discriminate|].
      destruct e; try discriminate. exact (Hno _ _ eq_refl).
    + intros [H|H]; contradiction.
  - intros e -> -> Hopen. unfold load. cbn [infoPath].
    destruct (String.eqb_spec volInfoPath "") as [Hempty|_].
    { exfalso. revert Hempty. apply Join_last_not_empty. discriminate. }
    rewrite Hopen. reflexivity.
Qed.

Lemma getVolume_NotFound_iff_stat_failed_witness :
  (codeOf (Status NotFound "/vol/vol1/.info.json") = NotFound <->
   os.Stat volRoot (path.Join [vol vfs; "vol1"]) <> None
   \/ os.Stat volRoot (path.Join [path.Join [vol vfs; "vol1"]; infoFileName]) <> None)
  /\ os.Stat volRootSealed "/vol/vol1/.info.json" = None
  /\ getVolume (codec := canonical.codec) vfs volRootSealed "vol1"
     = (None,
        Some (Status Internal
                ("failed to open volume info file: /vol/vol1/.info.json: "
                   ++ "open /vol/vol1/.info.json: permission denied"))).
Proof.
  split; [|split; [reflexivity|]].
  - destruct (getVolume_NotFound_iff_stat_failed canonical.codec vfs volRoot "vol1")
      as [H _].
    apply (H (Status NotFound "/vol/vol1/.info.json")). reflexivity.
  - destruct (getVolume_NotFound_iff_stat_failed canonical.codec vfs volRootSealed
                "vol1") as [_ H].
    apply (H (PathError "open" "/vol/vol1/.info.json" EACCES)); reflexivity.
Defined.

(** X13.  The store reads back what it wrote.  After the save of a
    record whose info path is the info file of the volume [idOrName], in
    a volume directory that exists, [getVolume] returns a record bound to
    that directory and info file, with the capacity that was saved and
    the create request that was saved as a reader finds it, every byte
    that is not part of well-formed UTF-8 replaced by U+FFFD.  So when
    the name and the parameters of the request are well-formed UTF-8, the
    public view of the record (identifier, capacity, attributes) is the
    one of the record that was saved. *)
Theorem getVolume_after_save (s : service) (v : volumeInfo) (fs fs' : FS)
  (idOrName : string) :
  let volPath := path.Join [vol s; idOrName] in
  infoPath v = path.Join [volPath; infoFileName] ->
  json.inInt64 (capacityBytes v) = true ->
  canonical.int64s (CreateVolumeRequest v) = true ->
  save (codec := canonical.codec) v fs = (fs', None) ->
  os.Stat fs' volPath = None ->
  exists v',
    getVolume (codec := canonical.codec) s fs' idOrName = (Some v', None)
    /\ CreateVolumeRequest v' = canonical.readBack (CreateVolumeRequest v)
    /\ capacityBytes v' = capacityBytes v
    /\ path_ v' = volPath
    /\ infoPath v' = infoPath v
    /\ (utf8.ValidString (csi.Name (CreateVolumeRequest v)) = true ->
        canonical.validMap (csi.Parameters (CreateVolumeRequest v)) ->
        toCSIVolInfo v' = toCSIVolInfo v).
Proof.
  intros volPath Hinfo Hrange Hints Hsave Hdir.
  destruct (save_success (codec := canonical.codec) v fs fs' Hsave)
    as (buf & _ & Hfault & Hnode).
  exists (mkVolumeInfo (canonical.readBack (CreateVolumeRequest v)) (capacityBytes v)
            volPath (infoPath v)).
  split; [|repeat split].
  - rewrite (getVolume_steps canonical.codec s fs' idOrName). fold volPath.
    rewrite Hdir, <- Hinfo.
    unfold os.Stat at 1. rewrite Hfault, Hnode.
    rewrite (canonical_load_after_save v fs fs' volPath Hrange Hints Hsave).
    reflexivity.
  - intros Hname Hparameters. unfold toCSIVolInfo.
    cbn [CreateVolumeRequest capacityBytes canonical.readBack csi.Name csi.Parameters].
    rewrite (ToValid_valid _ Hname), (readBackMap_valid _ Hparameters). reflexivity.
Qed.

Lemma getVolume_after_save_witness :
  exists v',
    getVolume (codec := canonical.codec) vfs
      (fst (save (codec := canonical.codec) vol1Info volRoot)) "vol1"
    = (Some v', None)
    /\ toCSIVolInfo v' = toCSIVolInfo vol1Info
    /\ path_ v' = "/vol/vol1"
    /\ infoPath v' = "/vol/vol1/.info.json".
Proof.
  destruct (getVolume_after_save vfs vol1Info volRoot
              (fst (save (codec := canonical.codec) vol1Info volRoot)) "vol1")
    as (v' & Hget & _ & _ & Hpath & Hinfo & Hview).
  - reflexivity.
  - reflexivity.
  - reflexivity.
  - vm_compute. reflexivity.
  - vm_compute. reflexivity.
  - exists v'. split; [exact Hget|]. split; [|split; [exact Hpath|exact Hinfo]].
    apply Hview; [reflexivity|].
    intros key val Hlookup.
    change (({["tier" := "fast"]} : gmap string string) !! key = Some val) in Hlookup.
    apply lookup_singleton_Some in Hlookup as [<- <-].
    split; reflexivity.
Defined.

(** X14.  An info file that holds the JSON text null is loaded without an
    error and without a value: [getVolume] then returns a record with the
    zero create request and the capacity 0, bound to the directory and
    the info file. *)
Theorem getVolume_null_info_file (codec : JSONPB) (s : service) (fs : FS)
  (idOrName : string) :
  let volPath := path.Join [vol s; idOrName] in
  let volInfoPath := path.Join [volPath; infoFileName] in
  os.Stat fs volPath = None ->
  faults fs !! volInfoPath = None ->
  nodes fs !! volInfoPath = Some (File (Value JNull)) ->
  getVolume s fs idOrName
  = (Some (mkVolumeInfo csi.zeroRequest 0 volPath volInfoPath), None).
Proof.
  intros volPath volInfoPath Hdir Hfault Hnode.
  rewrite (getVolume_steps codec s fs idOrName). fold volPath volInfoPath.
  rewrite Hdir. unfold os.Stat at 1. rewrite Hfault, Hnode.
  unfold load. cbn [infoPath].
  destruct (String.eqb_spec volInfoPath "") as [Hempty|_].
  { exfalso. revert Hempty. apply Join_last_not_empty. discriminate. }
  unfold os.Open. rewrite Hfault, Hnode. reflexivity.
Qed.

(** A volume root where the info file of vol1 holds the text null. *)
Lemma getVolume_null_info_file_witness :
  getVolume (codec := canonical.codec) vfs
    (mkFS {["/vol/vol1" := Dir; "/vol/vol1/.info.json" := File (Value JNull)]} ∅ ∅)
    "vol1"
  = (Some (mkVolumeInfo csi.zeroRequest 0 "/vol/vol1" "/vol/vol1/.info.json"), None).
Proof.
  apply (getVolume_null_info_file canonical.codec vfs
           (mkFS {["/vol/vol1" := Dir; "/vol/vol1/.info.json" := File (Value JNull)]}
              ∅ ∅) "vol1"); reflexivity.
Defined.



(** ** Start-up *)

Lemma LookupEnv_fst env name : fst (LookupEnv env name) = configured env name "".
Proof. unfold LookupEnv, configured. destruct (env !! name); reflexivity. Qed.

Lemma fromEnv_configured env name set s :
  fromEnv env name set s
  = match env !! name with Some v => set s v | None => s end.
Proof. unfold fromEnv, LookupEnv. destruct (env !! name); reflexivity. Qed.

Section StartupFacts.
Variables EnvVarDataDir EnvVarDevDir EnvVarMntDir EnvVarVolDir
          EnvVarVolGlob EnvVarBindFS : string.
Context {host : HostDirs}.

Lemma data_chosen env s :
  defaultData env (fromEnv env EnvVarDataDir setData s)
  = setData s (chosenData env EnvVarDataDir (data s)).
Proof.
  unfold defaultData, chosenData, orDefault.
  rewrite fromEnv_configured, !LookupEnv_fst.
  set (home := configured env "HOME" "").
  set (profile := configured env "USER_PROFILE" "").
  unfold configured. destruct s as [b d dv m v g].
  destruct (env !! EnvVarDataDir) as [x|]; cbn [data setData bindfs dev mnt vol volGlob];
    [destruct (String.eqb_spec x "") as [->|]|destruct (String.eqb_spec d "") as [->|]];
    try reflexivity;
    destruct (negb (String.eqb home "")); try reflexivity;
    destruct (negb (String.eqb profile "")); reflexivity.
Qed.

Lemma dev_stage env s :
  (if String.eqb (dev (fromEnv env EnvVarDevDir setDev s)) ""
   then setDev (fromEnv env EnvVarDevDir setDev s)
          (path.Join [data (fromEnv env EnvVarDevDir setDev s); "dev"])
   else fromEnv env EnvVarDevDir setDev s)
  = setDev s (orDefault (configured env EnvVarDevDir (dev s))
                (path.Join [data s; "dev"])).
Proof.
  rewrite fromEnv_configured. unfold orDefault, configured.
  destruct s as [b d dv m v g].
  destruct (env !! EnvVarDevDir) as [x|]; cbn [data dev setDev];
    [destruct (String.eqb_spec x "") as [->|]|destruct (String.eqb_spec dv "") as [->|]];
    reflexivity.
Qed.

Lemma mnt_stage env s :
  (if String.eqb (mnt (fromEnv env EnvVarMntDir setMnt s)) ""
   then setMnt (fromEnv env EnvVarMntDir setMnt s)
          (path.Join [data (fromEnv env EnvVarMntDir setMnt s); "mnt"])
   else fromEnv env EnvVarMntDir setMnt s)
  = setMnt s (orDefault (configured env EnvVarMntDir (mnt s))
                (path.Join [data s; "mnt"])).
Proof.
  rewrite fromEnv_configured. unfold orDefault, configured.
  destruct s as [b d dv m v g].
  destruct (env !! EnvVarMntDir) as [x|]; cbn [data mnt setMnt];
    [destruct (String.eqb_spec x "") as [->|]|destruct (String.eqb_spec m "") as [->|]];
    reflexivity.
Qed.

Lemma vol_stage env s :
  (if String.eqb (vol (fromEnv env EnvVarVolDir setVol s)) ""
   then setVol (fromEnv env EnvVarVolDir setVol s)
          (path.Join [data (fromEnv env EnvVarVolDir setVol s); "vol"])
   else fromEnv env EnvVarVolDir setVol s)
  = setVol s (orDefault (configured env EnvVarVolDir (vol s))
                (path.Join [data s; "vol"])).
Proof.
  rewrite fromEnv_configured. unfold orDefault, configured.
  destruct s as [b d dv m v g].
  destruct (env !! EnvVarVolDir) as [x|]; cbn [data vol setVol];
    [destruct (String.eqb_spec x "") as [->|]|destruct (String.eqb_spec v "") as [->|]];
    reflexivity.
Qed.

Lemma finishServe_fields env s sp :
  let s' := fst (finishServe EnvVarVolGlob EnvVarBindFS env s sp) in
  snd (finishServe EnvVarVolGlob EnvVarBindFS env s sp)
  = mkStoragePlugin (Interceptors sp ++ [validateVolumeCapabilities])
  /\ data s' = data s /\ dev s' = dev s /\ mnt s' = mnt s
  /\ vol s' = configured env EnvVarVolGlob (vol s)
  /\ volGlob s' = path.Join [vol s'; orDefault (volGlob s) "*"; infoFileName]
  /\ bindfs s' = orDefault (configured env EnvVarBindFS (bindfs s)) "bindfs".
Proof.
  cbn zeta. unfold finishServe, orDefault, configured.
  rewrite !fromEnv_configured. destruct s as [b d dv m v g].
  destruct (env !! EnvVarVolGlob) as [x|];
    cbn [data setData bindfs dev mnt vol volGlob setVol setVolGlob setBindfs];
    destruct (String.eqb_spec g "") as [->|];
    cbn [data setData bindfs dev mnt vol volGlob setVol setVolGlob setBindfs];
    destruct (env !! EnvVarBindFS) as [y|];
    cbn [data setData bindfs dev mnt vol volGlob setVol setVolGlob setBindfs fst snd];
    try destruct (String.eqb_spec y "") as [->|];
    try destruct (String.eqb_spec b "") as [->|];
    cbn [data setData bindfs dev mnt vol volGlob setVol setVolGlob setBindfs fst snd];
    repeat split.
Qed.

(** The whole of a start that succeeds. *)
Lemma BeforeServe_success env s fs sp s' fs' sp' :
  BeforeServe EnvVarDataDir EnvVarDevDir EnvVarMntDir EnvVarVolDir
    EnvVarVolGlob EnvVarBindFS env s fs sp = (s', fs', sp', None) ->
  let dataPath := chosenData env EnvVarDataDir (data s) in
  let devPath :=
    orDefault (configured env EnvVarDevDir (dev s)) (path.Join [data s'; "dev"]) in
  let mntPath :=
    orDefault (configured env EnvVarMntDir (mnt s)) (path.Join [data s'; "mnt"]) in
  let volPath :=
    orDefault (configured env EnvVarVolDir (vol s)) (path.Join [data s'; "vol"]) in
  exists fs1 fs2 fs3 volReal,
    MkdirAll fs dataPath = (fs1, None)
    /\ EvalSymlinks fs1 dataPath = inl (data s')
    /\ MkdirAll fs1 devPath = (fs2, None)
    /\ EvalSymlinks fs2 devPath = inl (dev s')
    /\ MkdirAll fs2 mntPath = (fs3, None)
    /\ EvalSymlinks fs3 mntPath = inl (mnt s')
    /\ MkdirAll fs3 volPath = (fs', None)
    /\ EvalSymlinks fs' volPath = inl volReal
    /\ vol s' = configured env EnvVarVolGlob volReal
    /\ volGlob s' = path.Join [vol s'; orDefault (volGlob s) "*"; infoFileName]
    /\ bindfs s' = orDefault (configured env EnvVarBindFS (bindfs s)) "bindfs"
    /\ sp' = mkStoragePlugin (Interceptors sp ++ [validateVolumeCapabilities]).
Proof.
  unfold BeforeServe. cbv zeta. rewrite (data_chosen env s).
  set (dataPath := chosenData env EnvVarDataDir (data s)).
  cbn [data setData].
  destruct (MkdirAll fs dataPath) as [fs1 [e|]] eqn:Hm1; [discriminate|].
  destruct (EvalSymlinks fs1 dataPath) as [real1|e] eqn:He1; [|discriminate].
  rewrite dev_stage. cbn [data dev setData setDev].
  destruct (MkdirAll fs1 _) as [fs2 [e|]] eqn:Hm2; [discriminate|].
  destruct (EvalSymlinks fs2 _) as [real2|e] eqn:He2; [|discriminate].
  rewrite mnt_stage. cbn [data mnt setData setDev setMnt].
  destruct (MkdirAll fs2 _) as [fs3 [e|]] eqn:Hm3; [discriminate|].
  destruct (EvalSymlinks fs3 _) as [real3|e] eqn:He3; [|discriminate].
  rewrite vol_stage. cbn [data vol setData setDev setMnt setVol].
  destruct (MkdirAll fs3 _) as [fs4 [e|]] eqn:Hm4; [discriminate|].
  destruct (EvalSymlinks fs4 _) as [real4|e] eqn:He4; [|discriminate].
  match goal with |- context [finishServe _ _ env ?s8 sp] =>
    pose proof (finishServe_fields env s8 sp) as Hfin;
    destruct (finishServe EnvVarVolGlob EnvVarBindFS env s8 sp) as [s9 sp9]
  end.
  cbn [fst snd data dev mnt vol volGlob bindfs setData setDev setMnt setVol] in Hfin.
  destruct Hfin as (Hsp & Hdata & Hdev & Hmnt & Hvol & Hglob & Hbind).
  intros H. injection H as <- <- <-.
  cbv zeta. rewrite Hdata, Hdev, Hmnt.
  exists fs1, fs2, fs3, real4. repeat split; assumption.
Qed.

Lemma orDefault_not_empty v default : default <> "" -> orDefault v default <> "".
Proof.
  intros Hd. unfold orDefault.
  destruct (String.eqb_spec v ""); assumption.
Qed.

(** X16.  After a start that succeeds, the interceptor that validates
    volume capabilities is the last interceptor of the plug-in and the
    earlier ones are kept; the bind tool is never empty: it is the one of
    the environment, or else the one the service had, or else bindfs; and
    the glob is [Join vol pattern ".info.json"], the pattern being the one
    the service had, or else the star. *)
Theorem BeforeServe_success_leaves_service_ready env s fs sp s' fs' sp' :
  BeforeServe EnvVarDataDir EnvVarDevDir EnvVarMntDir EnvVarVolDir
    EnvVarVolGlob EnvVarBindFS env s fs sp = (s', fs', sp', None) ->
  Interceptors sp' = Interceptors sp ++ [validateVolumeCapabilities]
  /\ bindfs s' <> ""
  /\ bindfs s' = orDefault (configured env EnvVarBindFS (bindfs s)) "bindfs"
  /\ volGlob s' = path.Join [vol s'; orDefault (volGlob s) "*"; infoFileName].
Proof.
  intros H. destruct (BeforeServe_success _ _ _ _ _ _ _ H)
    as (fs1 & fs2 & fs3 & volReal & _ & _ & _ & _ & _ & _ & _ & _ & _
        & Hglob & Hbind & ->).
  repeat split; try assumption.
  rewrite Hbind. apply orDefault_not_empty. discriminate.
Qed.

(** X17.  A start that fails registers no interceptor and assigns neither
    the glob nor the bind tool; its error is the one of the [MkdirAll] or
    of the [EvalSymlinks] that failed, and the file system is the one
    that call was made on or left. *)
Theorem BeforeServe_failure_registers_nothing env s fs sp s' fs' sp' err :
  BeforeServe EnvVarDataDir EnvVarDevDir EnvVarMntDir EnvVarVolDir
    EnvVarVolGlob EnvVarBindFS env s fs sp = (s', fs', sp', Some err) ->
  sp' = sp
  /\ volGlob s' = volGlob s
  /\ bindfs s' = bindfs s
  /\ ((exists f p, MkdirAll f p = (fs', Some err))
      \/ (exists p, EvalSymlinks fs' p = inr err)).
Proof.
  unfold BeforeServe. cbv zeta. rewrite (data_chosen env s).
  cbn [data setData].
  destruct (MkdirAll fs _) as [fs1 [e|]] eqn:Hm1.
  { intros H. injection H as <- <- <- <-. repeat split. left. eauto. }
  destruct (EvalSymlinks fs1 _) as [real1|e] eqn:He1.
  2:{ intros H. injection H as <- <- <- <-. repeat split. right. eauto. }
  rewrite dev_stage. cbn [data dev setData setDev].
  destruct (MkdirAll fs1 _) as [fs2 [e|]] eqn:Hm2.
  { intros H. injection H as <- <- <- <-. repeat split. left. eauto. }
  destruct (EvalSymlinks fs2 _) as [real2|e] eqn:He2.
  2:{ intros H. injection H as <- <- <- <-. repeat split. right. eauto. }
  rewrite mnt_stage. cbn [data mnt setData setDev setMnt].
  destruct (MkdirAll fs2 _) as [fs3 [e|]] eqn:Hm3.
  { intros H. injection H as <- <- <- <-. repeat split. left. eauto. }
  destruct (EvalSymlinks fs3 _) as [real3|e] eqn:He3.
  2:{ intros H. injection H as <- <- <- <-. repeat split. right. eauto. }
  rewrite vol_stage. cbn [data vol setData setDev setMnt setVol].
  destruct (MkdirAll fs3 _) as [fs4 [e|]] eqn:Hm4.
  { intros H. injection H as <- <- <- <-. repeat split. left. eauto. }
  destruct (EvalSymlinks fs4 _) as [real4|e] eqn:He4.
  2:{ intros H. injection H as <- <- <- <-. repeat split. right. eauto. }
  destruct (finishServe _ _ _ _ _). discriminate.
Qed.

(** X18.  The variable for the glob is assigned to the volume directory.
    After a start that succeeds, when that variable is set the volume
    directory is its value, whatever directory was made and resolved
    before, and the glob is that value joined with the pattern the
    service had, or the star; when it is not set the volume directory is
    a path that [EvalSymlinks] gave. *)
Theorem BeforeServe_glob_variable_sets_vol env s fs sp s' fs' sp' :
  BeforeServe EnvVarDataDir EnvVarDevDir EnvVarMntDir EnvVarVolDir
    EnvVarVolGlob EnvVarBindFS env s fs sp = (s', fs', sp', None) ->
  (forall v, env !! EnvVarVolGlob = Some v ->
     vol s' = v
     /\ volGlob s' = path.Join [v; orDefault (volGlob s) "*"; infoFileName])
  /\ (env !! EnvVarVolGlob = None -> exists p, EvalSymlinks fs' p = inl (vol s')).
Proof.
  intros H. destruct (BeforeServe_success _ _ _ _ _ _ _ H)
    as (fs1 & fs2 & fs3 & volReal & _ & _ & _ & _ & _ & _ & _ & Hreal & Hvol
        & Hglob & _ & _).
  unfold configured in Hvol. split.
  - intros v Hv. rewrite Hv in Hvol. rewrite Hglob, Hvol. auto.
  - intros Hnone. rewrite Hnone in Hvol. rewrite Hvol. eauto.
Qed.

(** X19.  After a start that succeeds, the device, mount and volume
    directories that were made are the configured ones, and for a
    directory that is not configured, or is configured empty, the
    directory of that name under the resolved data directory; each was
    made by [MkdirAll] and the service holds what [EvalSymlinks] gave for
    it (for the volume directory, unless the variable for the glob is
    set). *)
Theorem BeforeServe_directories_default_under_data env s fs sp s' fs' sp' :
  BeforeServe EnvVarDataDir EnvVarDevDir EnvVarMntDir EnvVarVolDir
    EnvVarVolGlob EnvVarBindFS env s fs sp = (s', fs', sp', None) ->
  let made name current sub :=
    orDefault (configured env name current) (path.Join [data s'; sub]) in
  (exists f f', MkdirAll f (made EnvVarDevDir (dev s) "dev") = (f', None)
                /\ EvalSymlinks f' (made EnvVarDevDir (dev s) "dev") = inl (dev s'))
  /\ (exists f f', MkdirAll f (made EnvVarMntDir (mnt s) "mnt") = (f', None)
                   /\ EvalSymlinks f' (made EnvVarMntDir (mnt s) "mnt") = inl (mnt s'))
  /\ (exists f volReal,
        MkdirAll f (made EnvVarVolDir (vol s) "vol") = (fs', None)
        /\ EvalSymlinks fs' (made EnvVarVolDir (vol s) "vol") = inl volReal
        /\ (env !! EnvVarVolGlob = None -> vol s' = volReal)).
Proof.
  intros H made. destruct (BeforeServe_success _ _ _ _ _ _ _ H)
    as (fs1 & fs2 & fs3 & volReal & _ & _ & Hm2 & He2 & Hm3 & He3 & Hm4 & He4
        & Hvol & _).
  unfold made. split; [eauto|]. split; [eauto|].
  exists fs3, volReal. repeat split; try assumption.
  intros Hnone. unfold configured in Hvol. rewrite Hnone in Hvol. exact Hvol.
Qed.

(** X20.  The data directory, the first that a start makes: the
    configured one when it is not empty; or else the directory .csi-vfs
    under HOME; or else the one under USER_PROFILE; and when none of
    these is set, the empty path.  When [MkdirAll] fails on it, or
    [EvalSymlinks] after it, the start fails with that error, the path
    being assigned to the service and nothing else; after a start that
    succeeds the service holds what [EvalSymlinks] gave for it. *)
Theorem BeforeServe_data_directory env s fs sp :
  let wanted := configured env EnvVarDataDir (data s) in
  let home := configured env "HOME" "" in
  let profile := configured env "USER_PROFILE" "" in
  let started :=
    BeforeServe EnvVarDataDir EnvVarDevDir EnvVarMntDir EnvVarVolDir
      EnvVarVolGlob EnvVarBindFS env s fs sp in
  exists dataPath,
    (wanted <> "" -> dataPath = wanted)
    /\ (wanted = "" -> home <> "" -> dataPath = path.Join [home; ".csi-vfs"])
    /\ (wanted = "" -> home = "" -> profile <> "" ->
        dataPath = path.Join [profile; ".csi-vfs"])
    /\ (wanted = "" -> home = "" -> profile = "" -> dataPath = "")
    /\ (forall fs1 err,
          MkdirAll fs dataPath = (fs1, Some err) ->
          started = (setData s dataPath, fs1, sp, Some err))
    /\ (forall fs1 err,
          MkdirAll fs dataPath = (fs1, None) ->
          EvalSymlinks fs1 dataPath = inr err ->
          started = (setData s dataPath, fs1, sp, Some err))
    /\ (forall s' fs' sp',
          started = (s', fs', sp', None) ->
          exists fs1,
            MkdirAll fs dataPath = (fs1, None)
            /\ EvalSymlinks fs1 dataPath = inl (data s')).
Proof.
  intros wanted home profile started.
  exists (chosenData env EnvVarDataDir (data s)).
  split; [|split; [|split; [|split; [|split; [|split]]]]].
  - unfold chosenData, orDefault. fold wanted.
    intros Hw. destruct (String.eqb_spec wanted ""); [contradiction|reflexivity].
  - unfold chosenData, orDefault. fold wanted home.
    intros -> Hh. cbn. destruct (String.eqb_spec home ""); [contradiction|reflexivity].
  - unfold chosenData, orDefault. fold wanted home profile.
    intros -> -> Hp. cbn.
    destruct (String.eqb_spec profile ""); [contradiction|reflexivity].
  - unfold chosenData, orDefault. fold wanted home profile.
    intros -> -> ->. reflexivity.
  - intros fs1 err Hmk. unfold started, BeforeServe. cbv zeta.
    rewrite (data_chosen env s). cbn [data setData]. rewrite Hmk. reflexivity.
  - intros fs1 err Hmk Heval. unfold started, BeforeServe. cbv zeta.
    rewrite (data_chosen env s). cbn [data setData]. rewrite Hmk, Heval.
    reflexivity.
  - intros s' fs' sp' H. destruct (BeforeServe_success _ _ _ _ _ _ _ H)
      as (fs1 & fs2 & fs3 & volReal & Hm1 & He1 & _).
    exists fs1. split; assumption.
Qed.

End StartupFacts.

Lemma serve_homeEnv :
  serve homeEnv bareHost
  = (fst (fst (fst (serve homeEnv bareHost))), snd (fst (fst (serve homeEnv bareHost))),
     snd (fst (serve homeEnv bareHost)), None).
Proof. vm_compute. reflexivity. Qed.

Lemma serve_globEnv :
  serve globEnv bareHost
  = (fst (fst (fst (serve globEnv bareHost))), snd (fst (fst (serve globEnv bareHost))),
     snd (fst (serve globEnv bareHost)), None).
Proof. vm_compute. reflexivity. Qed.

Lemma serve_deniedHost :
  serve homeEnv deniedHost
  = (fst (fst (fst (serve homeEnv deniedHost))),
     snd (fst (fst (serve homeEnv deniedHost))),
     snd (fst (serve homeEnv deniedHost)),
     Some (PathError "mkdir" "/home/csi/.csi-vfs/mnt" EACCES)).
Proof. vm_compute. reflexivity. Qed.

Lemma BeforeServe_success_leaves_service_ready_witness :
  Interceptors (snd (fst (serve homeEnv bareHost)))
  = [registered "logging"] ++ [validateVolumeCapabilities]
  /\ bindfs (fst (fst (fst (serve homeEnv bareHost)))) <> "".
Proof.
  destruct (BeforeServe_success_leaves_service_ready _ _ _ _ _ _ _ _ _ _ _ _ _
              serve_homeEnv) as (H1 & H2 & _).
  split; [exact H1|exact H2].
Defined.

Lemma BeforeServe_failure_registers_nothing_witness :
  snd (fst (serve homeEnv deniedHost)) = mkStoragePlugin [registered "logging"]
  /\ volGlob (fst (fst (fst (serve homeEnv deniedHost)))) = ""
  /\ bindfs (fst (fst (fst (serve homeEnv deniedHost)))) = "".
Proof.
  destruct (BeforeServe_failure_registers_nothing _ _ _ _ _ _ _ _ _ _ _ _ _ _
              serve_deniedHost) as (H1 & H2 & H3 & _).
  repeat split; assumption.
Defined.

Lemma BeforeServe_glob_variable_sets_vol_witness :
  vol (fst (fst (fst (serve globEnv bareHost)))) = "/srv/volumes"
  /\ volGlob (fst (fst (fst (serve globEnv bareHost))))
     = path.Join ["/srv/volumes"; orDefault (volGlob New) "*"; infoFileName].
Proof.
  destruct (BeforeServe_glob_variable_sets_vol _ _ _ _ _ _ _ _ _ _ _ _ _
              serve_globEnv) as (H & _).
  apply H. reflexivity.
Defined.

Lemma BeforeServe_directories_default_under_data_witness :
  exists f f',
    plainHost.MkdirAll f "/home/csi/.csi-vfs/dev" = (f', None)
    /\ plainHost.EvalSymlinks f' "/home/csi/.csi-vfs/dev"
       = inl (dev (fst (fst (fst (serve homeEnv bareHost))))).
Proof.
  destruct (BeforeServe_directories_default_under_data _ _ _ _ _ _ _ _ _ _ _ _ _
              serve_homeEnv) as (H & _).
  exact H.
Defined.

Lemma BeforeServe_data_directory_witness :
  serve ∅ bareHost
  = (New, bareHost, mkStoragePlugin [registered "logging"],
     Some (PathError "mkdir" "" ENOENT))
  /\ exists fs1,
       plainHost.MkdirAll bareHost "/home/csi/.csi-vfs" = (fs1, None)
       /\ plainHost.EvalSymlinks fs1 "/home/csi/.csi-vfs"
          = inl (data (fst (fst (fst (serve homeEnv bareHost))))).
Proof.
  split.
  - pose proof (BeforeServe_data_directory "X_CSI_VFS_DATA" "X_CSI_VFS_DEV"
                  "X_CSI_VFS_MNT" "X_CSI_VFS_VOL" "X_CSI_VFS_VOL_GLOB"
                  "X_CSI_VFS_BINDFS" (host := plainHost.host) ∅ New bareHost
                  (mkStoragePlugin [registered "logging"])) as H.
    cbv zeta in H. destruct H as (dataPath & _ & _ & _ & Hnone & Hfail & _).
    rewrite (Hnone eq_refl eq_refl eq_refl) in Hfail.
    apply (Hfail bareHost (PathError "mkdir" "" ENOENT)). reflexivity.
  - pose proof (BeforeServe_data_directory "X_CSI_VFS_DATA" "X_CSI_VFS_DEV"
                  "X_CSI_VFS_MNT" "X_CSI_VFS_VOL" "X_CSI_VFS_VOL_GLOB"
                  "X_CSI_VFS_BINDFS" (host := plainHost.host) homeEnv New bareHost
                  (mkStoragePlugin [registered "logging"])) as H.
    cbv zeta in H. destruct H as (dataPath & _ & Hhome & _ & _ & _ & _ & Hdone).
    rewrite (Hhome eq_refl) in Hdone by discriminate.
    apply (Hdone _ _ _ serve_homeEnv).
Defined.
